(** * Line coverage (lcov) generation of s2e-env: aggregation and serialization

    Shallow embedding of [s2e_env/commands/code_coverage/lcov.py]
    (class [LineCoverage]): the translation-block address aggregation
    [_get_addr_coverage], the lcov serializer [_save_coverage_info], the
    optional HTML pass [_gen_html] and the command entry point [handle].

    Conventions of the embedding
    - Python integers are unbounded: addresses, line numbers and counts are
      [Z].  [xrange] is the one place where the machine shows: it raises
      [OverflowError] for arguments that do not convert to a C [long] and
      for intervals of more than [sys.maxint] items.
    - The address table ([dict] keyed by address) is a [gmap Z Z]; the
      file/line tables, whose iteration order decides the order of the
      report, are association lists in iteration order.
    - Everything the command does to the outside world (logging, opening
      and writing the report, asking the file system, running genhtml) is
      recorded as a trace of events by a small writer/error monad.
    - The collaborators that are imported from elsewhere ([get_tb_files],
      [parse_tb_file], [line_info.get_file_line_coverage], the file system,
      [genhtml]) are the fields of a [World] record. *)

From stdpp Require Import gmap strings list fin_maps pretty.
From Stdlib Require Import ZArith Lia Ascii.

Local Open Scope Z_scope.

(** ** Data model *)

(** One entry of a translation-block coverage file: a three element
    sequence.  The source binds the first two components to [start_addr]
    and [end_addr] and the third one to [_]. *)
Record AddressRange := mkRange {
  start_addr : Z;
  end_addr : Z;
  hit_count : Z
}.

(** [addr_counts]: instruction address to count. *)
Abbreviation AddressCountTable := (gmap Z Z).

(** One file's [line -> count] dictionary, in [items()] order. *)
Abbreviation LineTable := (list (Z * Z)).

(** [file_line_info]: source file path to its line table, in [keys()]
    order; [file_line_info[src_file]] is the table paired with the key. *)
Abbreviation LineCountTable := (list (string * LineTable)).

(** ** Effects *)

Inductive event :=
| LogInfo (msg : string)
| LogWarning (msg : string)
| Open (path : string)
| Write (text : string)
| Realpath (path : string)
| IsFile (path : string)
| Genhtml (lcov_info_path output_directory : string).

(** The exceptions that leave the command: [CommandError] with its
    message, and the [OverflowError] of [xrange]. *)
Inductive error :=
| CommandError (msg : string)
| OverflowError.

Inductive result (A : Type) :=
| Ok (a : A)
| Raise (e : error).
Arguments Ok {A} a.
Arguments Raise {A} e.

(** A computation yields the events it performed, in order, and either a
    value or the exception it raised. *)
Definition M (A : Type) : Type := list event * result A.

Definition ret {A} (a : A) : M A := ([], Ok a).

Definition bind {A B} (m : M A) (k : A → M B) : M B :=
  match m with
  | (tr, Ok a) => let '(tr', r) := k a in (tr ++ tr', r)
  | (tr, Raise e) => (tr, Raise e)
  end.

Definition emit (e : event) : M unit := ([e], Ok tt).
Definition raise {A} (e : error) : M A := ([], Raise e).

Notation "x <- m ;; k" := (bind m (λ x, k))
  (at level 100, m at next level, right associativity, only parsing).
Notation "m ;; k" := (bind m (λ _, k))
  (at level 100, right associativity, only parsing).

(** [for x in xs: body], the loop variable threaded through [acc]. *)
Fixpoint for_each {A S} (xs : list A) (acc : S) (body : S → A → M S) : M S :=
  match xs with
  | [] => ret acc
  | x :: xs' => acc' <- body acc x ;; for_each xs' acc' body
  end.

Definition trace {A} (m : M A) : list event := fst m.
Definition outcome {A} (m : M A) : result A := snd m.

(** The text that ends up in the report: what was written, in order. *)
Fixpoint written (tr : list event) : list string :=
  match tr with
  | [] => []
  | Write s :: tr' => s :: written tr'
  | _ :: tr' => written tr'
  end.

Definition report_text (tr : list event) : string :=
  foldr String.app ""%string (written tr).

Definition is_report_io (e : event) : bool :=
  match e with
  | Open _ | Write _ => true
  | _ => false
  end.

(** ** The world around the command *)

Record World := mkWorld {
  (** [self.project_path], applied to the path components *)
  project_path : list string → string;
  (** [get_tb_files(dir)]: the coverage files of the last run *)
  get_tb_files : string → list string;
  (** [parse_tb_file(file, target_name)]: [None], or the entries *)
  parse_tb_file : string → string → option (list AddressRange);
  (** [line_info.get_file_line_coverage(target_path, addr_counts)] *)
  get_file_line_coverage : string → AddressCountTable → LineCountTable;
  (** [os.path.realpath] and [os.path.isfile] *)
  realpath : string → string;
  isfile : string → bool;
  (** [genhtml]: [None] on success, the [ErrorReturnCode] text otherwise *)
  genhtml : string → string → option string
}.

(** ** [_get_addr_coverage] *)

(** [sys.maxint]: the largest C [long] of the 64-bit hosts the tool runs
    on. *)
Definition sys_maxint : Z := 2 ^ 63 - 1.

(** An integer that converts to a C [long]. *)
Definition in_long (n : Z) : Prop := - sys_maxint - 1 ≤ n ≤ sys_maxint.

(** The arguments [xrange] accepts: both convert to a C [long] and the
    number of items does not exceed [sys.maxint]. *)
Definition xrange_ok (start stop : Z) : Prop :=
  in_long start ∧ in_long stop ∧ stop - start ≤ sys_maxint.

#[global] Instance xrange_ok_dec start stop : Decision (xrange_ok start stop).
Proof. unfold xrange_ok, in_long. apply _. Defined.

(** [xrange(start, stop)]: the integers of [start, stop) in increasing
    order, or [OverflowError] for arguments it does not accept. *)
Definition xrange (start stop : Z) : result (list Z) :=
  if decide (xrange_ok start stop) then Ok (seqZ start (stop - start))
  else Raise OverflowError.

(** [addr_counts[addr] = addr_counts.get(addr, 0) + 1] *)
Definition count_addr (addr_counts : AddressCountTable) (addr : Z)
  : AddressCountTable :=
  <[addr := default 0 (addr_counts !! addr) + 1]> addr_counts.

(** A [for] loop whose body updates [addr_counts] in place and may raise:
    the dictionary as the loop leaves it, and how the loop ended. *)
Fixpoint for_counting {A} (xs : list A) (addr_counts : AddressCountTable)
    (body : AddressCountTable → A → AddressCountTable * result unit)
  : AddressCountTable * result unit :=
  match xs with
  | [] => (addr_counts, Ok tt)
  | x :: xs' =>
      match body addr_counts x with
      | (addr_counts', Ok _) => for_counting xs' addr_counts' body
      | (addr_counts', Raise e) => (addr_counts', Raise e)
      end
  end.

(** [for addr in xrange(start_addr, end_addr): ...]; [xrange] is called
    before the first iteration. *)
Definition count_range (addr_counts : AddressCountTable) (r : AddressRange)
  : AddressCountTable * result unit :=
  match xrange (start_addr r) (end_addr r) with
  | Ok addrs => (foldl count_addr addr_counts addrs, Ok tt)
  | Raise e => (addr_counts, Raise e)
  end.

(** Body of the loop over the coverage files; [not tb_coverage_data]
    holds for [None] and for the empty list. *)
Definition count_tb_data (addr_counts : AddressCountTable)
    (tb_coverage_data : option (list AddressRange))
  : AddressCountTable * result unit :=
  match tb_coverage_data with
  | None => (addr_counts, Ok tt)
  | Some [] => (addr_counts, Ok tt)
  | Some data => for_counting data addr_counts count_range
  end.

(** An exception leaves the function without a value: the dictionary is
    returned only when the loop over the files ends normally. *)
Definition _get_addr_coverage (w : World) (target_name : string)
  : M AddressCountTable :=
  emit (LogInfo "Generating translation block coverage information") ;;
  let tb_coverage_files := get_tb_files w (project_path w ["s2e-last"]) in
  match for_counting tb_coverage_files ∅
          (λ addr_counts tb_coverage_file,
             count_tb_data addr_counts
               (parse_tb_file w tb_coverage_file target_name)) with
  | (addr_counts, Ok _) => ret addr_counts
  | (_, Raise e) => raise e
  end.

(** ** [_save_coverage_info] *)

(** The line terminator written after every record line. *)
Definition nl : string := String "010"%char "".

(** [c in s] for a one character string [c]. *)
Fixpoint contains_char (c : ascii) (s : string) : bool :=
  match s with
  | EmptyString => false
  | String c' s' => Ascii.eqb c c' || contains_char c s'
  end.

(** ['\\' in src_file] *)
Definition contains_backslash (src_file : string) : bool :=
  contains_char "\"%char src_file.

(** [%d] applied to an integer: its decimal numeral. *)
Definition fmt_d (n : Z) : string := pretty n.

Definition sys_realpath (w : World) (path : string) : M string :=
  emit (Realpath path) ;; ret (realpath w path).

Definition sys_isfile (w : World) (path : string) : M bool :=
  emit (IsFile path) ;; ret (isfile w path).

Definition missing_file_warning (abs_src_path : string) : string :=
  "Cannot find source file '" +:+ abs_src_path +:+ "'. Skipping...".

(** Body of [for line, count in file_line_info[src_file].items()]; the
    accumulator is [(num_non_zero_lines, num_instrumented_lines)]. *)
Definition save_line (acc : Z * Z) (item : Z * Z) : M (Z * Z) :=
  let '(num_non_zero_lines, num_instrumented_lines) := acc in
  let '(line, count) := item in
  emit (Write ("DA:" +:+ fmt_d line +:+ "," +:+ fmt_d count +:+ nl)) ;;
  let num_non_zero_lines :=
    if bool_decide (count ≠ 0) then num_non_zero_lines + 1
    else num_non_zero_lines in
  ret (num_non_zero_lines, num_instrumented_lines + 1).

(** From [num_non_zero_lines = 0] to [f.write('end_of_record\n')]. *)
Definition save_record (abs_src_path : string) (lines : LineTable) : M unit :=
  emit (Write ("SF:" +:+ abs_src_path +:+ nl)) ;;
  counts <- for_each lines (0, 0) save_line ;;
  emit (Write ("LH:" +:+ fmt_d (fst counts) +:+ nl)) ;;
  emit (Write ("LF:" +:+ fmt_d (snd counts) +:+ nl)) ;;
  emit (Write ("end_of_record" +:+ nl)).

(** Body of [for src_file in file_line_info.keys()]; [continue] ends the
    body after the warning. *)
Definition save_file (w : World) (_ : unit) (entry : string * LineTable)
  : M unit :=
  let '(src_file, lines) := entry in
  if contains_backslash src_file then
    save_record src_file lines
  else
    abs_src_path <- sys_realpath w src_file ;;
    found <- sys_isfile w abs_src_path ;;
    if negb found then
      emit (LogWarning (missing_file_warning abs_src_path))
    else
      save_record abs_src_path lines.

Definition _save_coverage_info (w : World) (file_line_info : LineCountTable)
  : M string :=
  let lcov_path := project_path w ["s2e-last"; "coverage.info"]%string in
  emit (LogInfo ("Writing line coverage to " +:+ lcov_path)) ;;
  emit (Open lcov_path) ;;
  emit (Write ("TN:" +:+ nl)) ;;
  for_each file_line_info tt (save_file w) ;;
  ret lcov_path.

(** ** [_gen_html] and [handle] *)

Definition _gen_html (w : World) (lcov_info_path : string) : M string :=
  let lcov_html_dir := project_path w ["s2e-last"; "lcov"]%string in
  emit (Genhtml lcov_info_path lcov_html_dir) ;;
  match genhtml w lcov_info_path lcov_html_dir with
  | Some e => raise (CommandError e)
  | None => ret lcov_html_dir
  end.

(** [self._project_desc] *)
Record ProjectDesc := mkDesc {
  target_path : string;
  target : string
}.

(** [handle]; [html] is [options.get('html', False)]. *)
Definition handle (w : World) (_project_desc : ProjectDesc) (html : bool)
  : M string :=
  let target_path := target_path _project_desc in
  let target_name := target _project_desc in
  addr_counts <- _get_addr_coverage w target_name ;;
  if bool_decide (addr_counts = ∅) then
    raise (CommandError "No translation block information found")
  else
    let file_line_info := get_file_line_coverage w target_path addr_counts in
    lcov_info_path <- _save_coverage_info w file_line_info ;;
    if html then
      lcov_html_dir <- _gen_html w lcov_info_path ;;
      ret ("Line coverage saved to " +:+ lcov_info_path +:+
           ". An HTML report is available in " +:+ lcov_html_dir)
    else
      ret ("Line coverage saved to " +:+ lcov_info_path).

(** ** A concrete world for examples *)

Definition example_ranges : list AddressRange :=
  [mkRange 0x1000 0x1010 2; mkRange 0x1008 0x1020 3].

Definition example_table : LineCountTable :=
  [("src/main.c", [(10, 4); (11, 0); (12, 1)]);
   ("C:\proj\win.c", [(3, 0); (7, 2)]);
   ("src/gone.c", [(1, 1)])]%string.

Fixpoint example_parse (files : list (string * option (list AddressRange)))
    (tb_coverage_file : string) : option (list AddressRange) :=
  match files with
  | [] => None
  | (name, data) :: files' =>
      if bool_decide (name = tb_coverage_file) then data
      else example_parse files' tb_coverage_file
  end.

Definition example_world (files : list (string * option (list AddressRange)))
  : World :=
  {| project_path parts := foldl (λ p c, p +:+ "/" +:+ c) "/proj" parts;
     get_tb_files _ := fst <$> files;
     parse_tb_file f _ := example_parse files f;
     get_file_line_coverage _ _ := example_table;
     realpath p := "/proj/" +:+ p;
     isfile p := bool_decide (p = "/proj/src/main.c"%string);
     genhtml _ _ := None |}.

Definition example_desc : ProjectDesc :=
  {| target_path := "/proj/bin/target"; target := "target" |}.

(** ** Specification vocabulary for the aggregation *)

(** The integers of [start, stop), in increasing order. *)
Definition interval (start stop : Z) : list Z := seqZ start (stop - start).

(** The table with every address of an entry's interval counted once. *)
Definition bump_range (addr_counts : AddressCountTable) (r : AddressRange)
  : AddressCountTable :=
  foldl count_addr addr_counts (interval (start_addr r) (end_addr r)).

(** The table with every entry of a parsed coverage file counted. *)
Definition bump_tb_data (addr_counts : AddressCountTable)
    (tb_coverage_data : option (list AddressRange)) : AddressCountTable :=
  match tb_coverage_data with
  | None => addr_counts
  | Some [] => addr_counts
  | Some data => foldl bump_range addr_counts data
  end.

(** An entry whose interval [xrange] accepts. *)
Definition range_ok (r : AddressRange) : Prop :=
  xrange_ok (start_addr r) (end_addr r).

#[global] Instance range_ok_dec r : Decision (range_ok r).
Proof. unfold range_ok. apply _. Defined.

(** [addr_counts.get(addr, 0)] *)
Definition dict_get (addr_counts : AddressCountTable) (addr : Z) : Z :=
  default 0 (addr_counts !! addr).

(** The half-open interval of a range covers [a]. *)
Definition covers (r : AddressRange) (a : Z) : Prop :=
  start_addr r ≤ a < end_addr r.

#[global] Instance covers_dec r a : Decision (covers r a).
Proof. unfold covers. apply _. Defined.

(** Entries of one parsed coverage file ([None] has none). *)
Definition ranges_of (tb_coverage_data : option (list AddressRange))
  : list AddressRange :=
  default [] tb_coverage_data.

(** Every entry the command sees, file after file. *)
Definition all_ranges (w : World) (target_name : string) : list AddressRange :=
  get_tb_files w (project_path w ["s2e-last"%string]) ≫=
    λ tb_coverage_file, ranges_of (parse_tb_file w tb_coverage_file target_name).

(** Number of entries (with repetitions) whose interval covers [a]. *)
Definition occurrences (a : Z) (rs : list AddressRange) : Z :=
  Z.of_nat (length (filter (λ r, covers r a) rs)).

(** Sum of the [hit_count] fields of the entries covering [a]. *)
Definition sum_hit_counts (a : Z) (rs : list AddressRange) : Z :=
  foldr Z.add 0 (hit_count <$> filter (λ r, covers r a) rs).

(** What an entry stores once [n] is added to an address: nothing new when
    [n = 0], the previous count (0 if absent) plus [n] otherwise. *)
Definition bumped (addr_counts : AddressCountTable) (a n : Z) : option Z :=
  if bool_decide (n = 0) then addr_counts !! a
  else Some (dict_get addr_counts a + n).

(** Two parsed files that differ at most in the third component. *)
Definition same_span (r1 r2 : AddressRange) : Prop :=
  start_addr r1 = start_addr r2 ∧ end_addr r1 = end_addr r2.

Definition same_spans (d1 d2 : option (list AddressRange)) : Prop :=
  option_Forall2 (Forall2 same_span) d1 d2.

(** ** Specification vocabulary for the report *)

Definition tn_line : string := "TN:" +:+ nl.
Definition sf_line (path : string) : string := "SF:" +:+ path +:+ nl.
Definition da_line (item : Z * Z) : string :=
  "DA:" +:+ fmt_d (fst item) +:+ "," +:+ fmt_d (snd item) +:+ nl.
Definition lh_line (n : Z) : string := "LH:" +:+ fmt_d n +:+ nl.
Definition lf_line (n : Z) : string := "LF:" +:+ fmt_d n +:+ nl.
Definition end_line : string := "end_of_record" +:+ nl.

(** H: the lines of a line table whose execution count is non-zero. *)
Definition lines_hit (lines : LineTable) : Z :=
  Z.of_nat (length (filter (λ item, snd item ≠ 0) lines)).

(** N: the size of a line table. *)
Definition lines_found (lines : LineTable) : Z :=
  Z.of_nat (length lines).

(** A file record as the exchange format describes it. *)
Definition lcov_record (path : string) (lines : LineTable) : list string :=
  sf_line path :: (da_line <$> lines) ++
  [lh_line (lines_hit lines); lf_line (lines_found lines); end_line].

(** The path a table key is reported under, if it is reported at all. *)
Definition reported_path (w : World) (src_file : string) : option string :=
  if contains_backslash src_file then Some src_file
  else if isfile w (realpath w src_file) then Some (realpath w src_file)
  else None.

(** The report lines one table entry accounts for. *)
Definition entry_lines (w : World) (entry : string * LineTable) : list string :=
  match reported_path w (fst entry) with
  | Some path => lcov_record path (snd entry)
  | None => []
  end.

(** The report as a list of lines: the header, then the records. *)
Definition lcov_report (w : World) (file_line_info : LineCountTable)
  : list string :=
  tn_line :: (file_line_info ≫= entry_lines w).

(** What one iteration of the loop over the files does to the world. *)
Definition entry_trace (w : World) (entry : string * LineTable) : list event :=
  if contains_backslash (fst entry) then
    Write <$> lcov_record (fst entry) (snd entry)
  else
    Realpath (fst entry) :: IsFile (realpath w (fst entry)) ::
    (if isfile w (realpath w (fst entry)) then
       Write <$> lcov_record (realpath w (fst entry)) (snd entry)
     else [LogWarning (missing_file_warning (realpath w (fst entry)))]).

(** ** Readings of the spec that the code does not follow *)

(** The reading of the additivity sentence in which an entry adds its third
    component: the stored count (0 when absent) is the sum of [hit_count]
    over the covering entries. *)
Definition sums_hit_counts (w : World) (target_name : string) (a : Z) : Prop :=
  ∀ m, outcome (_get_addr_coverage w target_name) = Ok m →
       dict_get m a = sum_hit_counts a (all_ranges w target_name).

(** The reading of C10 as it is written: if every key without back-slash
    is missing on disk, the serializer returns and the report is the
    header line alone. *)
Definition header_only_when_unslashed_missing
    (w : World) (file_line_info : LineCountTable) : Prop :=
  Forall (λ entry, contains_backslash entry.1 = false →
                   isfile w (realpath w entry.1) = false) file_line_info →
  outcome (_save_coverage_info w file_line_info)
    = Ok (project_path w ["s2e-last"; "coverage.info"]%string) ∧
  written (trace (_save_coverage_info w file_line_info)) = [tn_line].



(** ** Further example data *)

(** Entries just beyond the largest C [long]. *)
Definition far_range : AddressRange := mkRange (2 ^ 63) (2 ^ 63 + 4) 1.


(** A run that meets a fitting entry and then one beyond the C [long]. *)
Definition far_world : World :=
  example_world [("tb0.json"%string, Some [mkRange 0x1000 0x1010 2; far_range])].

Definition overlap_world : World :=
  example_world [("tb0.json"%string, Some example_ranges)].

Definition recounted_world : World :=
  example_world
    [("tb0.json"%string, Some [mkRange 0x1000 0x1010 7; mkRange 0x1008 0x1020 0])].

Definition boundary_range : AddressRange := mkRange 0x2000 0x2004 1.

Definition no_data_world : World :=
  example_world [("tb0.json"%string, Some []); ("tb1.json"%string, None)].

(** Another run: a different project directory, and a file system that
    differs from the example one only off the table. *)
Definition rerun_world : World :=
  {| project_path parts := foldl (λ p c, p +:+ "/" +:+ c) "/other" parts;
     get_tb_files _ := [];
     parse_tb_file _ _ := None;
     get_file_line_coverage _ _ := example_table;
     realpath p := "/proj/" +:+ p;
     isfile p := bool_decide (p = "/proj/src/main.c"%string) ||
                 bool_decide (p = "/proj/src/unrelated.c"%string);
     genhtml _ _ := Some "genhtml failed"%string |}.

Definition windows_and_missing_table : LineCountTable :=
  [("C:\proj\win.c", [(3, 0); (7, 2)]); ("src/gone.c", [(1, 1)])]%string.

(** ** Further vocabulary and example data for the pipeline *)

(** Coverage files holding one entry each. *)
Definition first_block_world : World :=
  example_world [("tb0.json"%string, Some [mkRange 0x1000 0x1010 2])].

Definition second_block_world : World :=
  example_world [("tb1.json"%string, Some [mkRange 0x1008 0x1020 3])].

(** The two entries of [overlap_world], met in the other order and in two
    files. *)
Definition swapped_world : World :=
  example_world [("tb1.json"%string, Some [mkRange 0x1008 0x1020 3]);
                 ("tb0.json"%string, Some [mkRange 0x1000 0x1010 2])].

(** The table entries that get a record, and those that are skipped. *)
Definition reported (w : World) (file_line_info : LineCountTable)
  : LineCountTable :=
  filter (λ entry, is_Some (reported_path w entry.1)) file_line_info.

Definition skipped (w : World) (file_line_info : LineCountTable)
  : LineCountTable :=
  filter (λ entry, reported_path w entry.1 = None) file_line_info.

(** The messages logged at warning level, in order. *)
Definition warnings (tr : list event) : list string :=
  omap (λ e, match e with LogWarning msg => Some msg | _ => None end) tr.

(** Questions put to the file system. *)
Definition is_fs_query (e : event) : bool :=
  match e with
  | Realpath _ | IsFile _ => true
  | _ => false
  end.

(** A table of Windows-style keys only. *)
Definition windows_table : LineCountTable :=
  [("C:\proj\win.c", [(3, 0); (7, 2)]); ("D:\lib\util.c", [])]%string.

(** The two project paths of the command. *)
Definition lcov_info_path (w : World) : string :=
  project_path w ["s2e-last"; "coverage.info"]%string.

Definition lcov_html_dir (w : World) : string :=
  project_path w ["s2e-last"; "lcov"]%string.

(** The same world with another coverage-file parser. *)
Definition with_parse_tb_file (w : World)
    (parse : string → string → option (list AddressRange)) : World :=
  {| project_path := project_path w;
     get_tb_files := get_tb_files w;
     parse_tb_file := parse;
     get_file_line_coverage := get_file_line_coverage w;
     realpath := realpath w;
     isfile := isfile w;
     genhtml := genhtml w |}.

(** The same world with another renderer. *)
Definition with_genhtml (w : World)
    (render : string → string → option string) : World :=
  {| project_path := project_path w;
     get_tb_files := get_tb_files w;
     parse_tb_file := parse_tb_file w;
     get_file_line_coverage := get_file_line_coverage w;
     realpath := realpath w;
     isfile := isfile w;
     genhtml := render |}.

Definition broken_renderer_world : World :=
  with_genhtml overlap_world (λ _ _, Some "genhtml: exit code 1"%string).

(** The sum of all the counts of a table. *)
Definition total_count (addr_counts : AddressCountTable) : Z :=
  map_fold (λ _ count acc, count + acc) 0 addr_counts.

(** The number of addresses of an entry's interval. *)
Definition range_length (r : AddressRange) : Z :=
  Z.max 0 (end_addr r - start_addr r).

(** The questions one table entry puts to the file system. *)
Definition entry_fs_queries (w : World) (entry : string * LineTable)
  : list event :=
  if contains_backslash entry.1 then []
  else [Realpath entry.1; IsFile (realpath w entry.1)].

(** * Properties of the aggregation *)

Section aggregation.
Implicit Types (m : AddressCountTable) (r : AddressRange) (a b : Z).

Lemma lookup_count_addr m a b :
  count_addr m a !! b = if decide (a = b) then Some (dict_get m b + 1)
                        else m !! b.
Proof.
  unfold count_addr, dict_get. rewrite lookup_insert.
  destruct (decide (a = b)); by subst.
Qed.

(** A loop over pairwise distinct addresses bumps each of them once. *)
Lemma lookup_fold_count_addr (l : list Z) m b :
  NoDup l →
  foldl count_addr m l !! b =
    if decide (b ∈ l) then Some (dict_get m b + 1) else m !! b.
Proof.
  intros Hnd. revert m. induction Hnd as [|a l Hnotin Hnd IH]; intros m.
  - simpl. destruct (decide (b ∈ [])) as [H|]; [by apply elem_of_nil in H|done].
  - simpl. rewrite IH. unfold dict_get. rewrite lookup_count_addr.
    destruct (decide (a = b)) as [->|Hab].
    + destruct (decide (b ∈ l)); [done|].
      destruct (decide (b ∈ b :: l)) as [|Hn]; [done|].
      exfalso. apply Hn. left.
    + destruct (decide (b ∈ l)) as [Hin|Hnin].
      * destruct (decide (b ∈ a :: l)) as [|Hn]; [done|].
        exfalso. apply Hn. by right.
      * destruct (decide (b ∈ a :: l)) as [Hin'|]; [|done].
        apply elem_of_cons in Hin' as [->|]; done.
Qed.

Lemma elem_of_interval a start stop : a ∈ interval start stop ↔ start ≤ a < stop.
Proof. unfold interval. rewrite elem_of_seqZ. lia. Qed.

Lemma lookup_bump_range m r a :
  bump_range m r !! a =
    if decide (covers r a) then Some (dict_get m a + 1) else m !! a.
Proof.
  unfold bump_range. rewrite lookup_fold_count_addr by apply NoDup_seqZ.
  destruct (decide (a ∈ _)) as [Hin|Hnin], (decide (covers r a)) as [Hc|Hnc];
    try done; exfalso; unfold covers in *; rewrite elem_of_interval in *; lia.
Qed.

Lemma occurrences_nonneg a rs : 0 ≤ occurrences a rs.
Proof. unfold occurrences. lia. Qed.

Lemma occurrences_cons a r rs :
  occurrences a (r :: rs) =
    (if decide (covers r a) then 1 else 0) + occurrences a rs.
Proof.
  unfold occurrences. rewrite filter_cons.
  destruct (decide (covers r a)); simpl; lia.
Qed.

Lemma occurrences_app a rs1 rs2 :
  occurrences a (rs1 ++ rs2) = occurrences a rs1 + occurrences a rs2.
Proof. unfold occurrences. rewrite filter_app, length_app. lia. Qed.

Lemma dict_get_bumped m m' a n :
  m' !! a = bumped m a n → dict_get m' a = dict_get m a + n.
Proof.
  unfold bumped, dict_get. intros ->. case_bool_decide; simpl; [subst|]; lia.
Qed.

(** Composition of two bumps. *)
Lemma bumped_trans m m' m'' a n k :
  0 ≤ n → 0 ≤ k →
  m' !! a = bumped m a n → m'' !! a = bumped m' a k →
  m'' !! a = bumped m a (n + k).
Proof.
  intros Hn Hk H1 H2. rewrite H2. unfold bumped at 1.
  rewrite (dict_get_bumped _ _ _ _ H1).
  case_bool_decide as Hk0.
  - subst k. rewrite H1. by rewrite Z.add_0_r.
  - unfold bumped. rewrite bool_decide_eq_false_2 by lia. f_equal. lia.
Qed.

Lemma lookup_fold_bump_range (data : list AddressRange) m a :
  foldl bump_range m data !! a = bumped m a (occurrences a data).
Proof.
  revert m. induction data as [|r data IH]; intros m; [done|].
  simpl. rewrite occurrences_cons.
  eapply bumped_trans; [| apply occurrences_nonneg | | apply IH].
  - destruct (decide (covers r a)); lia.
  - rewrite lookup_bump_range. by destruct (decide (covers r a)).
Qed.

Lemma lookup_bump_tb_data m d a :
  bump_tb_data m d !! a = bumped m a (occurrences a (ranges_of d)).
Proof.
  destruct d as [[|r data]|]; [done| |done].
  apply lookup_fold_bump_range.
Qed.

Lemma lookup_fold_bump_tb_data
    (parse : string → option (list AddressRange)) (files : list string) m a :
  foldl (λ acc f, bump_tb_data acc (parse f)) m files !! a =
    bumped m a (occurrences a (files ≫= λ f, ranges_of (parse f))).
Proof.
  revert m. induction files as [|f files IH]; intros m; [done|].
  simpl. rewrite occurrences_app.
  eapply bumped_trans; [apply occurrences_nonneg ..| |apply IH].
  apply lookup_bump_tb_data.
Qed.

(** The code against the tables above: [xrange] either yields the
    interval or raises before anything is counted. *)
Lemma xrange_fits start stop :
  xrange_ok start stop → xrange start stop = Ok (interval start stop).
Proof. intros H. unfold xrange. by rewrite decide_True. Qed.

Lemma xrange_overflow start stop :
  ¬ xrange_ok start stop → xrange start stop = Raise OverflowError.
Proof. intros H. unfold xrange. by rewrite decide_False. Qed.

Lemma count_range_fits m r :
  range_ok r → count_range m r = (bump_range m r, Ok tt).
Proof. intros H. unfold count_range. by rewrite xrange_fits. Qed.

Lemma count_range_overflow m r :
  ¬ range_ok r → count_range m r = (m, Raise OverflowError).
Proof. intros H. unfold count_range. by rewrite xrange_overflow. Qed.

Lemma for_counting_ranges_fits (data : list AddressRange) m :
  Forall range_ok data →
  for_counting data m count_range = (foldl bump_range m data, Ok tt).
Proof.
  intros H. revert m. induction H as [|r data Hr _ IH]; intros m; [done|].
  cbn [for_counting foldl]. rewrite (count_range_fits _ _ Hr). apply IH.
Qed.

Lemma for_counting_ranges_overflow (data : list AddressRange) m :
  ¬ Forall range_ok data →
  (for_counting data m count_range).2 = Raise OverflowError.
Proof.
  revert m. induction data as [|r data IH]; intros m Hn.
  - destruct Hn. constructor.
  - cbn [for_counting]. destruct (decide (range_ok r)) as [Hr|Hr].
    + rewrite (count_range_fits _ _ Hr). apply IH. intros Hall. apply Hn.
      by constructor.
    + by rewrite (count_range_overflow _ _ Hr).
Qed.

(** However the loop ends, the dictionary holds the entries counted so
    far: those of a prefix of the data. *)
Lemma for_counting_ranges_prefix (data : list AddressRange) m :
  ∃ k, (for_counting data m count_range).1 = foldl bump_range m (take k data).
Proof.
  revert m. induction data as [|r data IH]; intros m; [by exists 0%nat|].
  cbn [for_counting]. destruct (decide (range_ok r)) as [Hr|Hr].
  - rewrite (count_range_fits _ _ Hr). destruct (IH (bump_range m r)) as [k Hk].
    exists (S k). by rewrite Hk.
  - rewrite (count_range_overflow _ _ Hr). by exists 0%nat.
Qed.

Lemma count_tb_data_fits m d :
  Forall range_ok (ranges_of d) →
  count_tb_data m d = (bump_tb_data m d, Ok tt).
Proof.
  destruct d as [[|r data]|]; [done| |done].
  apply (for_counting_ranges_fits (r :: data)).
Qed.

Lemma count_tb_data_overflow m d :
  ¬ Forall range_ok (ranges_of d) →
  (count_tb_data m d).2 = Raise OverflowError.
Proof.
  destruct d as [[|r data]|]; [intros []; constructor| |intros []; constructor].
  apply (for_counting_ranges_overflow (r :: data)).
Qed.

Lemma count_tb_data_prefix m d :
  ∃ k, (count_tb_data m d).1 = foldl bump_range m (take k (ranges_of d)).
Proof.
  destruct d as [[|r data]|]; [by exists 0%nat| |by exists 0%nat].
  apply (for_counting_ranges_prefix (r :: data)).
Qed.

Lemma for_counting_files_fits
    (parse : string → option (list AddressRange)) (files : list string) m :
  Forall range_ok (files ≫= λ f, ranges_of (parse f)) →
  for_counting files m (λ acc f, count_tb_data acc (parse f))
    = (foldl (λ acc f, bump_tb_data acc (parse f)) m files, Ok tt).
Proof.
  revert m. induction files as [|f files IH]; intros m; [done|].
  rewrite bind_cons, Forall_app. intros [Hf Hfiles].
  cbn [for_counting foldl]. rewrite (count_tb_data_fits _ _ Hf). by apply IH.
Qed.

Lemma for_counting_files_overflow
    (parse : string → option (list AddressRange)) (files : list string) m :
  ¬ Forall range_ok (files ≫= λ f, ranges_of (parse f)) →
  (for_counting files m (λ acc f, count_tb_data acc (parse f))).2
    = Raise OverflowError.
Proof.
  revert m. induction files as [|f files IH]; intros m Hn.
  - destruct Hn. constructor.
  - rewrite bind_cons, Forall_app in Hn. cbn [for_counting].
    destruct (decide (Forall range_ok (ranges_of (parse f)))) as [Hf|Hf].
    + rewrite (count_tb_data_fits _ _ Hf). apply IH. tauto.
    + pose proof (count_tb_data_overflow m (parse f) Hf) as Ho.
      destruct (count_tb_data m (parse f)) as [m' st]. simpl in Ho.
      by rewrite Ho.
Qed.

(** When every entry fits, the aggregation returns its table. *)
Lemma get_addr_coverage_fits w target_name :
  Forall range_ok (all_ranges w target_name) →
  _get_addr_coverage w target_name =
    ([LogInfo "Generating translation block coverage information"],
     Ok (foldl (λ acc f, bump_tb_data acc (parse_tb_file w f target_name)) ∅
               (get_tb_files w (project_path w ["s2e-last"%string])))).
Proof.
  intros H. unfold _get_addr_coverage.
  rewrite (for_counting_files_fits (λ f, parse_tb_file w f target_name)) by done.
  done.
Qed.

(** When some entry does not, it raises, having logged one line. *)
Lemma get_addr_coverage_overflow w target_name :
  ¬ Forall range_ok (all_ranges w target_name) →
  _get_addr_coverage w target_name =
    ([LogInfo "Generating translation block coverage information"],
     Raise OverflowError).
Proof.
  intros H. unfold _get_addr_coverage.
  pose proof (for_counting_files_overflow
                (λ f, parse_tb_file w f target_name) _ ∅ H) as Ho.
  destruct (for_counting _ _ _) as [m st]. simpl in Ho. by rewrite Ho.
Qed.

Lemma get_addr_coverage_ok w target_name :
  Forall range_ok (all_ranges w target_name) →
  ∃ m, _get_addr_coverage w target_name =
         ([LogInfo "Generating translation block coverage information"], Ok m).
Proof. intros H. eexists. by apply get_addr_coverage_fits. Qed.

Lemma get_addr_coverage_trace w target_name :
  trace (_get_addr_coverage w target_name) =
    [LogInfo "Generating translation block coverage information"].
Proof.
  destruct (decide (Forall range_ok (all_ranges w target_name))) as [H|H].
  - by rewrite get_addr_coverage_fits.
  - by rewrite get_addr_coverage_overflow.
Qed.

Lemma get_addr_coverage_Ok_inv w target_name m :
  outcome (_get_addr_coverage w target_name) = Ok m →
  Forall range_ok (all_ranges w target_name) ∧
  _get_addr_coverage w target_name =
    ([LogInfo "Generating translation block coverage information"], Ok m).
Proof.
  destruct (decide (Forall range_ok (all_ranges w target_name))) as [H|H].
  - rewrite get_addr_coverage_fits by done. by intros [= <-].
  - by rewrite get_addr_coverage_overflow.
Qed.

Lemma lookup_get_addr_coverage w target_name m a :
  outcome (_get_addr_coverage w target_name) = Ok m →
  m !! a = bumped ∅ a (occurrences a (all_ranges w target_name)).
Proof.
  intros [Hfits Heq]%get_addr_coverage_Ok_inv.
  rewrite get_addr_coverage_fits in Heq by done. injection Heq as <-.
  unfold all_ranges. apply lookup_fold_bump_tb_data.
Qed.
End aggregation.

Section aggregation_claims.
Implicit Types (m : AddressCountTable) (r : AddressRange) (a : Z).

Lemma count_range_same_span m r1 r2 :
  same_span r1 r2 → count_range m r1 = count_range m r2.
Proof. intros [H1 H2]. unfold count_range. by rewrite H1, H2. Qed.

Lemma for_counting_same_span (d1 d2 : list AddressRange) m :
  Forall2 same_span d1 d2 →
  for_counting d1 m count_range = for_counting d2 m count_range.
Proof.
  intros H. revert m. induction H as [|r1 r2 d1 d2 Hr _ IH]; intros m; [done|].
  cbn [for_counting]. rewrite (count_range_same_span _ _ _ Hr).
  destruct (count_range m r2) as [m' [[]|e]]; [apply IH|done].
Qed.

Lemma count_tb_data_same_spans d1 d2 m :
  same_spans d1 d2 → count_tb_data m d1 = count_tb_data m d2.
Proof.
  intros [l1 l2 H|]; [|done].
  destruct H as [|r1 r2 l1 l2 Hr H]; [done|].
  apply (for_counting_same_span (r1 :: l1) (r2 :: l2)). by constructor.
Qed.

Lemma for_counting_files_same_spans
    (parse1 parse2 : string → option (list AddressRange)) files m :
  Forall (λ f, same_spans (parse1 f) (parse2 f)) files →
  for_counting files m (λ acc f, count_tb_data acc (parse1 f)) =
  for_counting files m (λ acc f, count_tb_data acc (parse2 f)).
Proof.
  intros H. revert m. induction H as [|f files Hf _ IH]; intros m; [done|].
  cbn [for_counting]. rewrite (count_tb_data_same_spans _ _ _ Hf).
  destruct (count_tb_data m (parse2 f)) as [m' [[]|e]]; [apply IH|done].
Qed.


(** A shorthand for the bounds of concrete entries. *)
Lemma small_range_ok r :
  0 ≤ start_addr r ≤ sys_maxint → 0 ≤ end_addr r ≤ sys_maxint → range_ok r.
Proof. unfold range_ok, xrange_ok, in_long, sys_maxint. lia. Qed.


Lemma bumped_empty a n :
  0 ≤ n → bumped ∅ a n = if bool_decide (n = 0) then None else Some n.
Proof.
  intros _. unfold bumped, dict_get. rewrite lookup_empty.
  case_bool_decide; simpl; [done|]. f_equal.
Qed.
End aggregation_claims.

(** C1, as written, fails: for the entries (0x1000,0x1010,2) and
    (0x1008,0x1020,3) the table stores 2 at 0x1008, whereas the hit counts
    of the two covering entries add up to 5. *)
Lemma hit_counts_not_summed :
  (∃ m, outcome (_get_addr_coverage overlap_world "target") = Ok m ∧
        m !! 0x1008 = Some 2) ∧
  sum_hit_counts 0x1008 (all_ranges overlap_world "target") = 5 ∧
  ¬ sums_hit_counts overlap_world "target" 0x1008.
Proof.
  split; [|split].
  - eexists. split; [reflexivity|]. by vm_compute.
  - by vm_compute.
  - intros H. specialize (H _ eq_refl). vm_compute in H. discriminate.
Qed.

(** C1 (amended): for every run whose entries [xrange] accepts (both
    addresses convert to a C long, at most [sys.maxint] addresses in
    between) and every address [a], aggregation returns a table in which
    the count stored for [a] is the number of entries, over all coverage
    files and counted with repetitions, whose half-open interval covers
    [a]; an address covered by no entry has no key.  The third component
    of an entry plays no part. *)
Theorem addr_count_is_number_of_covering_ranges
    (w : World) (target_name : string) :
  Forall range_ok (all_ranges w target_name) →
  ∃ m, outcome (_get_addr_coverage w target_name) = Ok m ∧
       ∀ a, dict_get m a = occurrences a (all_ranges w target_name) ∧
            m !! a =
              if bool_decide (occurrences a (all_ranges w target_name) = 0)
              then None
              else Some (occurrences a (all_ranges w target_name)).
Proof.
  intros Hfits.
  destruct (get_addr_coverage_ok w target_name Hfits) as [m Hm].
  exists m. assert (Ho : outcome (_get_addr_coverage w target_name) = Ok m)
    by (by rewrite Hm).
  split; [done|]. intros a.
  pose proof (lookup_get_addr_coverage w target_name m a Ho) as Hl.
  rewrite bumped_empty in Hl by apply occurrences_nonneg.
  split; [|done].
  unfold dict_get. rewrite Hl. case_bool_decide as H0; simpl; by rewrite ?H0.
Qed.

(** For (0x1000,0x1010,2) and (0x1008,0x1020,3) the count at 0x1008 is
    2. *)
Lemma addr_count_is_number_of_covering_ranges_witness :
  ∃ m, outcome (_get_addr_coverage overlap_world "target") = Ok m ∧
       all_ranges overlap_world "target" = example_ranges ∧
       m !! 0x1008 = Some 2.
Proof.
  destruct (addr_count_is_number_of_covering_ranges overlap_world "target")
    as (m & Ho & Hl).
  - repeat constructor; apply small_range_ok; vm_compute; intuition discriminate.
  - exists m. split; [exact Ho|]. split; [reflexivity|].
    destruct (Hl 0x1008) as [_ ->]. reflexivity.
Defined.









(** * Properties of the serializer *)

Section serializer.
Context (w : World).
Implicit Types (lines : LineTable) (t : LineCountTable).

Lemma written_app tr1 tr2 : written (tr1 ++ tr2) = written tr1 ++ written tr2.
Proof.
  induction tr1 as [|e tr1 IH]; [done|]. destruct e; simpl; by rewrite ?IH.
Qed.

Lemma written_writes (ls : list string) : written (Write <$> ls) = ls.
Proof.
  induction ls as [|l ls IH]; [done|].
  rewrite fmap_cons. cbn [written]. by rewrite IH.
Qed.

(** The inner loop writes one [DA:] line per item and counts as it goes. *)
Lemma for_each_save_line lines (nz ni : Z) :
  for_each lines (nz, ni) save_line =
    (Write <$> (da_line <$> lines),
     Ok (nz + lines_hit lines, ni + lines_found lines)).
Proof.
  revert nz ni. induction lines as [|[line count] lines IH]; intros nz ni.
  - simpl. unfold ret, lines_hit, lines_found. simpl.
    by rewrite !Z.add_0_r.
  - simpl. rewrite IH. unfold lines_hit, lines_found.
    rewrite filter_cons. simpl.
    case_bool_decide as Hc; destruct (decide (count ≠ 0)) as [Hd|Hd];
      try done; simpl;
      (apply (f_equal2 pair); [reflexivity|]; f_equal;
       apply (f_equal2 pair); lia).
Qed.

Lemma save_record_eq path lines :
  save_record path lines = (Write <$> lcov_record path lines, Ok tt).
Proof.
  unfold save_record. rewrite for_each_save_line.
  unfold lcov_record, bind, emit. cbn [fst snd].
  rewrite fmap_cons, fmap_app, !Z.add_0_l. cbn [app]. done.
Qed.

Lemma save_file_eq entry :
  save_file w tt entry = (entry_trace w entry, Ok tt).
Proof.
  destruct entry as [src_file lines]. unfold save_file, entry_trace. simpl.
  destruct (contains_backslash src_file); [apply save_record_eq|].
  simpl. destruct (isfile w (realpath w src_file)); simpl; [|done].
  by rewrite save_record_eq.
Qed.

Lemma for_each_save_file t :
  for_each t tt (save_file w) = (t ≫= entry_trace w, Ok tt).
Proof.
  induction t as [|entry t IH]; [done|].
  cbn [for_each]. rewrite save_file_eq. unfold bind. by rewrite IH.
Qed.

Lemma save_coverage_info_eq t :
  _save_coverage_info w t =
    (LogInfo ("Writing line coverage to " +:+
              project_path w ["s2e-last"; "coverage.info"]%string) ::
     Open (project_path w ["s2e-last"; "coverage.info"]%string) ::
     Write tn_line :: (t ≫= entry_trace w),
     Ok (project_path w ["s2e-last"; "coverage.info"]%string)).
Proof.
  unfold _save_coverage_info. rewrite for_each_save_file. simpl.
  by rewrite app_nil_r.
Qed.

Lemma written_entry_trace entry :
  written (entry_trace w entry) = entry_lines w entry.
Proof.
  unfold entry_trace, entry_lines, reported_path.
  destruct (contains_backslash entry.1); [apply written_writes|].
  cbn [written]. destruct (isfile w (realpath w entry.1)); [|done].
  apply written_writes.
Qed.

Lemma written_bind_entry_trace t :
  written (t ≫= entry_trace w) = t ≫= entry_lines w.
Proof.
  induction t as [|entry t IH]; [done|].
  rewrite !bind_cons, written_app, written_entry_trace. by rewrite IH.
Qed.

(** The serializer writes the header and then the records of the
    reported files, file after file. *)
Lemma written_save_coverage_info t :
  written (trace (_save_coverage_info w t)) = lcov_report w t.
Proof.
  rewrite save_coverage_info_eq. simpl. unfold lcov_report.
  by rewrite written_bind_entry_trace.
Qed.
End serializer.

Section serializer_claims.
Context (w : World).
Implicit Types (lines : LineTable) (t : LineCountTable).

Lemma bind_split {A B} (f : A → list B) (l1 l2 : list A) (x : A) :
  (l1 ++ x :: l2) ≫= f = (l1 ≫= f) ++ f x ++ (l2 ≫= f).
Proof. by rewrite bind_app, bind_cons. Qed.

(** Whatever a table entry accounts for stands, unbroken, in the report. *)
Lemma entry_lines_in_report t entry :
  entry ∈ t →
  ∃ before after,
    written (trace (_save_coverage_info w t)) =
      before ++ entry_lines w entry ++ after.
Proof.
  intros (t1 & t2 & ->)%list_elem_of_split.
  exists (tn_line :: (t1 ≫= entry_lines w)), (t2 ≫= entry_lines w).
  rewrite written_save_coverage_info. unfold lcov_report.
  by rewrite bind_split.
Qed.

Lemma entry_trace_in_trace t entry :
  entry ∈ t →
  ∃ before after,
    trace (_save_coverage_info w t) = before ++ entry_trace w entry ++ after.
Proof.
  intros (t1 & t2 & ->)%list_elem_of_split.
  rewrite save_coverage_info_eq. cbn [trace fst].
  eexists (_ :: _ :: _ :: (t1 ≫= entry_trace w)), (t2 ≫= entry_trace w).
  by rewrite bind_split.
Qed.

Lemma entry_lines_missing src_file lines :
  contains_backslash src_file = false →
  isfile w (realpath w src_file) = false →
  entry_lines w (src_file, lines) = [].
Proof.
  intros Hb Hf. unfold entry_lines, reported_path. simpl. by rewrite Hb, Hf.
Qed.

Lemma elem_of_entry_trace_isfile entry p :
  IsFile p ∈ entry_trace w entry →
  contains_backslash entry.1 = false ∧ p = realpath w entry.1.
Proof.
  unfold entry_trace. destruct (contains_backslash entry.1).
  - intros (? & ? & _)%list_elem_of_fmap. done.
  - intros [|[Heq|Hin]%elem_of_cons]%elem_of_cons; [done|by injection Heq|].
    destruct (isfile w (realpath w entry.1)).
    + apply list_elem_of_fmap in Hin as (? & ? & _). done.
    + apply list_elem_of_singleton in Hin. done.
Qed.

Lemma elem_of_entry_trace_realpath entry p :
  Realpath p ∈ entry_trace w entry →
  contains_backslash entry.1 = false ∧ p = entry.1.
Proof.
  unfold entry_trace. destruct (contains_backslash entry.1).
  - intros (? & ? & _)%list_elem_of_fmap. done.
  - intros [Heq|[|Hin]%elem_of_cons]%elem_of_cons; [by injection Heq|done|].
    destruct (isfile w (realpath w entry.1)).
    + apply list_elem_of_fmap in Hin as (? & ? & _). done.
    + apply list_elem_of_singleton in Hin. done.
Qed.
End serializer_claims.

Section report_lines.
Lemma app_nl_inj (s1 s2 : string) : s1 +:+ nl = s2 +:+ nl → s1 = s2.
Proof.
  revert s2. induction s1 as [|c1 s1 IH]; intros [|c2 s2]; simpl.
  - done.
  - intros [= _ H]. by destruct s2.
  - intros [= _ H]. by destruct s1.
  - intros [= -> H]. f_equal. by apply IH.
Qed.

Lemma sf_line_inj (p q : string) : sf_line p = sf_line q → p = q.
Proof. unfold sf_line. simpl. intros [= H]. by apply app_nl_inj. Qed.

Lemma sf_line_in_record p path (lines : LineTable) :
  sf_line p ∈ lcov_record path lines → p = path.
Proof.
  unfold lcov_record.
  intros [H|[H|H]%elem_of_app]%elem_of_cons.
  - by apply sf_line_inj.
  - by apply list_elem_of_fmap in H as (item & ? & _).
  - apply elem_of_cons in H as [H|H]; [done|].
    apply elem_of_cons in H as [H|H]; [done|].
    by apply list_elem_of_singleton in H.
Qed.

Lemma sf_line_in_report w (t : LineCountTable) p :
  sf_line p ∈ written (trace (_save_coverage_info w t)) →
  ∃ entry, entry ∈ t ∧ reported_path w entry.1 = Some p.
Proof.
  rewrite written_save_coverage_info. unfold lcov_report.
  intros [H|H]%elem_of_cons; [done|].
  apply list_elem_of_bind in H as (entry & Hin & Hentry).
  exists entry. split; [done|].
  unfold entry_lines in Hin. destruct (reported_path w entry.1) as [path|].
  - by rewrite (sf_line_in_record _ _ _ Hin).
  - by apply elem_of_nil in Hin.
Qed.
End report_lines.

(** * The claims about the pipeline and the serializer *)

Lemma no_ranges_no_counts (w : World) (target_name : string) :
  all_ranges w target_name = [] →
  outcome (_get_addr_coverage w target_name) = Ok ∅.
Proof.
  intros Hnone.
  destruct (get_addr_coverage_ok w target_name) as [m Hm].
  { rewrite Hnone. constructor. }
  assert (Ho : outcome (_get_addr_coverage w target_name) = Ok m)
    by (by rewrite Hm).
  rewrite Ho. f_equal. apply map_eq. intros a.
  rewrite (lookup_get_addr_coverage w target_name m a Ho), Hnone.
  by rewrite lookup_empty.
Qed.

Lemma no_files_no_ranges (w : World) (target_name : string) :
  get_tb_files w (project_path w ["s2e-last"%string]) = [] →
  all_ranges w target_name = [].
Proof. unfold all_ranges. by intros ->. Qed.

Lemma empty_files_no_ranges (w : World) (target_name : string) :
  Forall (λ f, ranges_of (parse_tb_file w f target_name) = [])
         (get_tb_files w (project_path w ["s2e-last"%string])) →
  all_ranges w target_name = [].
Proof.
  unfold all_ranges. induction 1 as [|f files Hf _ IH]; [done|].
  by rewrite bind_cons, Hf, IH.
Qed.

(** C3: when the aggregated table is empty (in particular when there is no
    coverage file, or no file yields an entry) [handle] raises the
    "No translation block information found" command error, and up to
    that point it has neither opened nor written a report: all it did
    was log the aggregation message. *)
Theorem handle_fails_without_coverage
    (w : World) (desc : ProjectDesc) (html : bool) :
  outcome (_get_addr_coverage w (target desc)) = Ok ∅ →
  outcome (handle w desc html)
    = Raise (CommandError "No translation block information found") ∧
  Forall (λ e, is_report_io e = false) (trace (handle w desc html)) ∧
  trace (handle w desc html) = trace (_get_addr_coverage w (target desc)).
Proof.
  intros Hempty.
  apply get_addr_coverage_Ok_inv in Hempty as [_ Hm].
  unfold handle. rewrite Hm. cbn [bind].
  rewrite bool_decide_eq_true_2 by done. cbn.
  split; [done|]. split; [|done]. by repeat constructor.
Qed.

Lemma handle_fails_without_coverage_witness :
  handle no_data_world example_desc true =
    ([LogInfo "Generating translation block coverage information"],
     Raise (CommandError "No translation block information found")).
Proof.
  destruct (handle_fails_without_coverage no_data_world example_desc true)
    as (Hout & _ & Htr).
  - reflexivity.
  - destruct (handle no_data_world example_desc true) as [tr r].
    simpl in Hout, Htr. by rewrite Hout, Htr.
Defined.

(** C6: for every table entry the serializer reports, with N lines of which
    H have a non-zero count, the report holds the entry's record in one
    piece: its SF: line, one DA: line per item, then LH:H, LF:N and
    end_of_record. *)
Theorem reported_record_counts
    (w : World) (file_line_info : LineCountTable)
    (src_file path : string) (lines : LineTable) :
  (src_file, lines) ∈ file_line_info →
  reported_path w src_file = Some path →
  ∃ before after,
    written (trace (_save_coverage_info w file_line_info)) =
      before ++
      (sf_line path :: (da_line <$> lines) ++
       [lh_line (Z.of_nat (length (filter (λ item, snd item ≠ 0) lines)));
        lf_line (Z.of_nat (length lines));
        end_line]) ++
      after.
Proof.
  intros Hin Hpath.
  destruct (entry_lines_in_report w _ _ Hin) as (before & after & Heq).
  exists before, after. rewrite Heq. unfold entry_lines. simpl.
  by rewrite Hpath.
Qed.

Lemma reported_record_counts_witness :
  ∃ before after,
    written (trace (_save_coverage_info (example_world []) example_table)) =
      before ++
      ["SF:/proj/src/main.c" +:+ nl; "DA:10,4" +:+ nl; "DA:11,0" +:+ nl;
       "DA:12,1" +:+ nl; "LH:2" +:+ nl; "LF:3" +:+ nl; end_line] ++
      after.
Proof.
  apply (reported_record_counts (example_world []) example_table
           "src/main.c" "/proj/src/main.c" [(10, 4); (11, 0); (12, 1)]).
  - apply list_elem_of_here.
  - reflexivity.
Defined.

(** C7: a table key without back-slash whose resolved path is not a file
    on disk is warned about and skipped: the report is, byte for byte, the
    report of the table without that entry, so nothing is written for it;
    no SF: line names its resolved path (as long as no Windows-style key
    of the table is literally that path); every other entry that is
    reported has its whole record in the report; and the serializer still
    returns the report path. *)
Theorem missing_file_is_skipped
    (w : World) (t1 t2 : LineCountTable) (src_file : string) (lines : LineTable) :
  contains_backslash src_file = false →
  isfile w (realpath w src_file) = false →
  LogWarning (missing_file_warning (realpath w src_file))
    ∈ trace (_save_coverage_info w (t1 ++ (src_file, lines) :: t2)) ∧
  written (trace (_save_coverage_info w (t1 ++ (src_file, lines) :: t2)))
    = written (trace (_save_coverage_info w (t1 ++ t2))) ∧
  ((∀ entry, entry ∈ t1 ++ t2 → contains_backslash entry.1 = true →
             entry.1 ≠ realpath w src_file) →
   sf_line (realpath w src_file)
     ∉ written (trace (_save_coverage_info w (t1 ++ (src_file, lines) :: t2)))) ∧
  (∀ src_file' lines' path,
     (src_file', lines') ∈ t1 ++ t2 →
     reported_path w src_file' = Some path →
     ∃ before after,
       written (trace (_save_coverage_info w (t1 ++ (src_file, lines) :: t2)))
         = before ++ lcov_record path lines' ++ after) ∧
  outcome (_save_coverage_info w (t1 ++ (src_file, lines) :: t2))
    = Ok (project_path w ["s2e-last"; "coverage.info"]%string).
Proof.
  intros Hb Hf.
  assert (Hsame :
    written (trace (_save_coverage_info w (t1 ++ (src_file, lines) :: t2)))
    = written (trace (_save_coverage_info w (t1 ++ t2)))).
  { rewrite !written_save_coverage_info. unfold lcov_report.
    rewrite bind_split, bind_app, entry_lines_missing by done. done. }
  split; [|split; [done|split; [|split]]].
  - destruct (entry_trace_in_trace w (t1 ++ (src_file, lines) :: t2)
                (src_file, lines)) as (before & after & ->).
    { apply elem_of_app. right. left. }
    apply elem_of_app. right. apply elem_of_app. left.
    unfold entry_trace. simpl. rewrite Hb, Hf. do 2 right. left.
  - intros Hother Hin.
    apply sf_line_in_report in Hin as ([src' lines'] & Hin & Hpath).
    unfold reported_path in Hpath. simpl in Hpath.
    destruct (contains_backslash src') eqn:Hb'.
    + injection Hpath as Heq.
      apply elem_of_app in Hin as [Hin|[Hin|Hin]%elem_of_cons].
      * apply (Hother (src', lines')); [apply elem_of_app; by left|done..].
      * injection Hin as -> ->. congruence.
      * apply (Hother (src', lines')); [apply elem_of_app; by right|done..].
    + destruct (isfile w (realpath w src')) eqn:Hf'; [|done].
      injection Hpath as Heq. congruence.
  - intros src' lines' path Hin Hpath. rewrite Hsame.
    destruct (entry_lines_in_report w _ _ Hin) as (before & after & Heq).
    exists before, after. rewrite Heq. unfold entry_lines. simpl.
    by rewrite Hpath.
  - by rewrite save_coverage_info_eq.
Qed.

Lemma missing_file_is_skipped_witness :
  LogWarning "Cannot find source file '/proj/src/gone.c'. Skipping..."
    ∈ trace (_save_coverage_info (example_world []) example_table) ∧
  written (trace (_save_coverage_info (example_world []) example_table))
    = written (trace (_save_coverage_info (example_world [])
                        (take 2 example_table))).
Proof.
  destruct (missing_file_is_skipped (example_world []) (take 2 example_table) []
              "src/gone.c" [(1, 1)]) as (Hwarn & Hsame & _);
    [reflexivity..|].
  split; [exact Hwarn|exact Hsame].
Defined.

(** C8: a key with a back-slash is written to its SF: line as it is, and
    the iteration that handles it does nothing but write its record: it
    asks the file system nothing.  A key without back-slash is first
    resolved with [realpath], the resolved path is the one checked with
    [isfile] and, if it is a file, the one written to the SF: line.  Over
    the whole run, every existence check is made for the resolved path of
    a key without back-slash. *)
Theorem sf_path_normalisation
    (w : World) (file_line_info : LineCountTable)
    (src_file : string) (lines : LineTable) :
  (src_file, lines) ∈ file_line_info →
  (contains_backslash src_file = true →
     trace (save_file w tt (src_file, lines))
       = Write <$> (sf_line src_file :: (da_line <$> lines) ++
                    [lh_line (lines_hit lines); lf_line (lines_found lines);
                     end_line]) ∧
     (∀ p, ¬ (IsFile p ∈ trace (save_file w tt (src_file, lines)) ∨
              Realpath p ∈ trace (save_file w tt (src_file, lines)))) ∧
     ∃ before after,
       trace (_save_coverage_info w file_line_info)
         = before ++ trace (save_file w tt (src_file, lines)) ++ after) ∧
  (contains_backslash src_file = false →
     ∃ before after,
       trace (_save_coverage_info w file_line_info)
         = before ++
           Realpath src_file :: IsFile (realpath w src_file) ::
           (if isfile w (realpath w src_file) then
              Write <$> (sf_line (realpath w src_file) :: (da_line <$> lines) ++
                         [lh_line (lines_hit lines);
                          lf_line (lines_found lines); end_line])
            else [LogWarning (missing_file_warning (realpath w src_file))]) ++
           after) ∧
  (∀ p, IsFile p ∈ trace (_save_coverage_info w file_line_info) →
        ∃ entry, entry ∈ file_line_info ∧
                 contains_backslash entry.1 = false ∧ p = realpath w entry.1).
Proof.
  intros Hin. split; [|split].
  - intros Hb. rewrite save_file_eq. cbn [trace fst].
    assert (Htr : entry_trace w (src_file, lines)
                  = Write <$> lcov_record src_file lines).
    { unfold entry_trace. simpl. by rewrite Hb. }
    split; [done|]. split.
    + intros p [H|H].
      * apply elem_of_entry_trace_isfile in H as [H _]. simpl in H. congruence.
      * apply elem_of_entry_trace_realpath in H as [H _]. simpl in H.
        congruence.
    + apply entry_trace_in_trace, Hin.
  - intros Hb.
    destruct (entry_trace_in_trace w _ _ Hin) as (before & after & ->).
    exists before, after. unfold entry_trace. simpl. by rewrite Hb.
  - intros p. rewrite save_coverage_info_eq. cbn [trace fst].
    intros [|[|[|H]%elem_of_cons]%elem_of_cons]%elem_of_cons; [done..|].
    apply list_elem_of_bind in H as (entry & Hp & Hentry).
    exists entry. split; [done|]. by apply elem_of_entry_trace_isfile.
Qed.

Lemma sf_path_normalisation_witness :
  trace (save_file (example_world []) tt ("C:\proj\win.c"%string, [(3, 0); (7, 2)]))
    = Write <$> ["SF:C:\proj\win.c" +:+ nl; "DA:3,0" +:+ nl; "DA:7,2" +:+ nl;
                 "LH:1" +:+ nl; "LF:2" +:+ nl; end_line].
Proof.
  destruct (sf_path_normalisation (example_world []) example_table
              "C:\proj\win.c" [(3, 0); (7, 2)]) as ((Htr & _) & _).
  - right. left.
  - reflexivity.
  - exact Htr.
Defined.

(** The lines of the report only depend on how the file system answers
    for the keys without back-slash. *)
Lemma entry_lines_agree (w1 w2 : World) (entry : string * LineTable) :
  (contains_backslash entry.1 = false →
   realpath w1 entry.1 = realpath w2 entry.1 ∧
   isfile w1 (realpath w1 entry.1) = isfile w2 (realpath w2 entry.1)) →
  entry_lines w1 entry = entry_lines w2 entry.
Proof.
  intros H. unfold entry_lines, reported_path.
  destruct (contains_backslash entry.1); [done|].
  destruct H as [-> ->]; done.
Qed.

(** C9: serialization is deterministic.  Two runs over the same table (in
    the same iteration order) produce byte-identical report text whenever
    the file system answers alike for the table's keys without back-slash:
    they resolve to the same paths, which are files in both runs or in
    neither.  A fortiori two runs in the same file-system state do. *)
Theorem serialization_is_deterministic
    (w1 w2 : World) (file_line_info : LineCountTable) :
  Forall (λ entry,
            contains_backslash entry.1 = false →
            realpath w1 entry.1 = realpath w2 entry.1 ∧
            isfile w1 (realpath w1 entry.1) = isfile w2 (realpath w2 entry.1))
         file_line_info →
  report_text (trace (_save_coverage_info w1 file_line_info))
    = report_text (trace (_save_coverage_info w2 file_line_info)).
Proof.
  intros H. unfold report_text. rewrite !written_save_coverage_info.
  unfold lcov_report. do 2 f_equal.
  induction H as [|entry t He _ IH]; [done|].
  by rewrite !bind_cons, IH, (entry_lines_agree w1 w2 entry He).
Qed.

Lemma serialization_is_deterministic_witness :
  report_text (trace (_save_coverage_info (example_world []) example_table))
    = report_text (trace (_save_coverage_info rerun_world example_table)).
Proof.
  apply (serialization_is_deterministic (example_world []) rerun_world
           example_table).
  repeat constructor.
Defined.

(** C10, as written, fails: in a table whose only key without back-slash
    is missing on disk, a Windows-style key is reported all the same, so
    the report is more than its header. *)
Lemma windows_path_still_reported :
  Forall (λ entry, contains_backslash entry.1 = false →
                   isfile (example_world []) (realpath (example_world []) entry.1)
                     = false) windows_and_missing_table ∧
  written (trace (_save_coverage_info (example_world [])
                    windows_and_missing_table))
    = [tn_line; "SF:C:\proj\win.c" +:+ nl; "DA:3,0" +:+ nl; "DA:7,2" +:+ nl;
       "LH:1" +:+ nl; "LF:2" +:+ nl; end_line] ∧
  ¬ header_only_when_unslashed_missing (example_world [])
      windows_and_missing_table.
Proof.
  assert (H : Forall (λ entry, contains_backslash entry.1 = false →
                isfile (example_world []) (realpath (example_world []) entry.1)
                  = false) windows_and_missing_table)
    by (by repeat constructor).
  split; [done|]. split; [reflexivity|].
  intros Hclaim. destruct (Hclaim H) as [_ Hw]. discriminate Hw.
Qed.

(** C10 (amended): serializing an empty table, or a table all of whose
    keys are without back-slash and missing on disk, returns the report
    path without raising, and the report consists of the header line
    "TN:" alone. *)
Theorem header_only_report (w : World) (file_line_info : LineCountTable) :
  Forall (λ entry, contains_backslash entry.1 = false ∧
                   isfile w (realpath w entry.1) = false) file_line_info →
  outcome (_save_coverage_info w file_line_info)
    = Ok (project_path w ["s2e-last"; "coverage.info"]%string) ∧
  written (trace (_save_coverage_info w file_line_info)) = [tn_line] ∧
  report_text (trace (_save_coverage_info w file_line_info)) = tn_line.
Proof.
  intros H.
  assert (Hw : written (trace (_save_coverage_info w file_line_info))
               = [tn_line]).
  { rewrite written_save_coverage_info. unfold lcov_report. f_equal.
    induction H as [|[src_file lines] t [Hb Hf] _ IH]; [done|].
    by rewrite bind_cons, IH, entry_lines_missing. }
  split; [by rewrite save_coverage_info_eq|]. split; [done|].
  unfold report_text. by rewrite Hw.
Qed.

Lemma header_only_report_witness :
  written (trace (_save_coverage_info (example_world []) [])) = [tn_line] ∧
  written (trace (_save_coverage_info (example_world [])
                    [("src/gone.c"%string, [(1, 1)])])) = [tn_line].
Proof.
  split.
  - apply (header_only_report (example_world []) []). constructor.
  - apply (header_only_report (example_world [])
             [("src/gone.c"%string, [(1, 1)])]).
    repeat constructor.
Defined.

(** * Further properties of the aggregation *)

Section aggregation_more.
Implicit Types (m : AddressCountTable) (r : AddressRange) (a : Z).

Lemma occurrences_Permutation a (rs1 rs2 : list AddressRange) :
  rs1 ≡ₚ rs2 → occurrences a rs1 = occurrences a rs2.
Proof. intros H. unfold occurrences. by rewrite H. Qed.

Lemma occurrences_pos_iff a (rs : list AddressRange) :
  0 < occurrences a rs ↔ ∃ r, r ∈ rs ∧ covers r a.
Proof.
  unfold occurrences. split.
  - intros H. destruct (filter (λ r, covers r a) rs) as [|r l] eqn:Hf;
      [simpl in H; lia|].
    exists r. assert (Hr : r ∈ filter (λ r, covers r a) rs)
      by (rewrite Hf; left).
    apply list_elem_of_filter in Hr as [? ?]. done.
  - intros (r & Hin & Hc).
    assert (Hr : r ∈ filter (λ r, covers r a) rs)
      by (by apply list_elem_of_filter).
    destruct (filter (λ r, covers r a) rs); [by apply elem_of_nil in Hr|].
    simpl. lia.
Qed.

Lemma get_addr_coverage_lookup w target_name :
  Forall range_ok (all_ranges w target_name) →
  ∃ m, outcome (_get_addr_coverage w target_name) = Ok m ∧
       ∀ a, m !! a =
            if bool_decide (occurrences a (all_ranges w target_name) = 0)
            then None
            else Some (occurrences a (all_ranges w target_name)).
Proof.
  intros Hfits. destruct (get_addr_coverage_ok w target_name Hfits) as [m Hm].
  exists m. assert (Ho : outcome (_get_addr_coverage w target_name) = Ok m)
    by (by rewrite Hm).
  split; [done|]. intros a.
  rewrite (lookup_get_addr_coverage w target_name m a Ho).
  apply bumped_empty, occurrences_nonneg.
Qed.

Lemma get_addr_coverage_dict_get w target_name m a :
  outcome (_get_addr_coverage w target_name) = Ok m →
  dict_get m a = occurrences a (all_ranges w target_name).
Proof.
  intros Ho. pose proof (lookup_get_addr_coverage w target_name m a Ho) as Hl.
  apply dict_get_bumped in Hl. rewrite Hl. unfold dict_get.
  by rewrite lookup_empty.
Qed.

Lemma dom_bump_range m r :
  dom (bump_range m r)
    = dom m ∪ list_to_set (interval (start_addr r) (end_addr r)).
Proof.
  apply set_eq. intros b.
  rewrite elem_of_union, !elem_of_dom, elem_of_list_to_set, elem_of_interval.
  rewrite lookup_bump_range.
  destruct (decide (covers r b)) as [Hc|Hc]; unfold covers in Hc.
  - split; [by right|]. by eexists.
  - split; [by left|]. by intros [H|H].
Qed.

Lemma bump_range_adjacent m (start mid stop h1 h2 h : Z) :
  start ≤ mid ≤ stop →
  bump_range (bump_range m (mkRange start mid h1)) (mkRange mid stop h2)
    = bump_range m (mkRange start stop h).
Proof.
  intros H. unfold bump_range, interval. simpl.
  replace (stop - start) with ((mid - start) + (stop - mid)) by lia.
  rewrite seqZ_app, foldl_app by lia.
  by replace (start + (mid - start)) with mid by lia.
Qed.

Lemma count_range_Ok_inv m r :
  (count_range m r).2 = Ok tt → range_ok r.
Proof.
  intros H. destruct (decide (range_ok r)) as [|Hn]; [done|].
  by rewrite (count_range_overflow _ _ Hn) in H.
Qed.
End aggregation_more.

(** X1: the table does not depend on the order in which the entries are
    met: two runs whose entries (over all coverage files) are permutations
    of each other return the same table. *)
Theorem addr_coverage_order_irrelevant
    (w1 w2 : World) (target1 target2 : string) :
  all_ranges w1 target1 ≡ₚ all_ranges w2 target2 →
  outcome (_get_addr_coverage w1 target1)
    = outcome (_get_addr_coverage w2 target2).
Proof.
  intros Hperm.
  destruct (decide (Forall range_ok (all_ranges w1 target1))) as [Hfits|Hn].
  - assert (Hfits2 : Forall range_ok (all_ranges w2 target2))
      by (by rewrite <- Hperm).
    destruct (get_addr_coverage_lookup w1 target1 Hfits) as (m1 & Ho1 & H1).
    destruct (get_addr_coverage_lookup w2 target2 Hfits2) as (m2 & Ho2 & H2).
    rewrite Ho1, Ho2. f_equal. apply map_eq. intros a.
    by rewrite H1, H2, (occurrences_Permutation a _ _ Hperm).
  - assert (Hn2 : ¬ Forall range_ok (all_ranges w2 target2))
      by (by rewrite <- Hperm).
    by rewrite (get_addr_coverage_overflow _ _ Hn),
               (get_addr_coverage_overflow _ _ Hn2).
Qed.

Lemma addr_coverage_order_irrelevant_witness :
  outcome (_get_addr_coverage overlap_world "target")
    = outcome (_get_addr_coverage swapped_world "target").
Proof.
  apply (addr_coverage_order_irrelevant overlap_world swapped_world).
  apply perm_swap.
Defined.

(** X2: when [xrange] accepts every entry, the keys of the returned table
    are exactly the addresses covered by some entry, and every stored
    count is at least 1: the table never holds a zero. *)
Theorem addr_counts_keys_and_positivity (w : World) (target_name : string) :
  Forall range_ok (all_ranges w target_name) →
  ∃ m, outcome (_get_addr_coverage w target_name) = Ok m ∧
       (∀ a, is_Some (m !! a) ↔
             ∃ r, r ∈ all_ranges w target_name ∧
                  start_addr r ≤ a < end_addr r) ∧
       (∀ a n, m !! a = Some n → 1 ≤ n).
Proof.
  intros Hfits.
  destruct (get_addr_coverage_lookup w target_name Hfits) as (m & Ho & Hl).
  exists m. split; [done|]. split.
  - intros a. rewrite Hl.
    pose proof (occurrences_nonneg a (all_ranges w target_name)) as Hn.
    pose proof (occurrences_pos_iff a (all_ranges w target_name)) as Hp.
    unfold covers in Hp. rewrite <- Hp.
    case_bool_decide as H0.
    + split; [by intros [? ?]|lia].
    + split; [lia|by eexists].
  - intros a n. rewrite Hl.
    pose proof (occurrences_nonneg a (all_ranges w target_name)) as Hn.
    case_bool_decide; [done|]. intros [= <-]. lia.
Qed.

Lemma addr_counts_keys_and_positivity_witness :
  ∃ m, outcome (_get_addr_coverage overlap_world "target") = Ok m ∧
       (∀ a, is_Some (m !! a) ↔
             ∃ r, r ∈ all_ranges overlap_world "target" ∧
                  start_addr r ≤ a < end_addr r) ∧
       (∀ a n, m !! a = Some n → 1 ≤ n).
Proof.
  apply (addr_counts_keys_and_positivity overlap_world "target").
  repeat constructor; apply small_range_ok; vm_compute; intuition discriminate.
Defined.

Lemma empty_table_iff_no_range (w : World) (target_name : string) :
  outcome (_get_addr_coverage w target_name) = Ok ∅ ↔
  Forall range_ok (all_ranges w target_name) ∧
  Forall (λ r, end_addr r ≤ start_addr r) (all_ranges w target_name).
Proof.
  split.
  - intros Ho. pose proof (get_addr_coverage_Ok_inv _ _ _ Ho) as [Hfits _].
    split; [done|]. apply Forall_forall. intros r Hr.
    destruct (decide (end_addr r ≤ start_addr r)) as [|Hlt]; [done|].
    exfalso.
    pose proof (lookup_get_addr_coverage _ _ _ (start_addr r) Ho) as Hl.
    rewrite lookup_empty, bumped_empty in Hl by apply occurrences_nonneg.
    case_bool_decide as H0; [|done].
    assert (0 < occurrences (start_addr r) (all_ranges w target_name)); [|lia].
    apply occurrences_pos_iff. exists r. split; [done|]. unfold covers. lia.
  - intros [Hfits Hall].
    destruct (get_addr_coverage_lookup w target_name Hfits) as (m & Ho & Hl).
    rewrite Ho. f_equal. apply map_eq. intros a.
    rewrite Hl, lookup_empty. case_bool_decide as H0; [done|].
    pose proof (occurrences_nonneg a (all_ranges w target_name)).
    assert (Hpos : 0 < occurrences a (all_ranges w target_name)) by lia.
    apply occurrences_pos_iff in Hpos as (r & Hr & Hc).
    rewrite Forall_forall in Hall. specialize (Hall r Hr).
    unfold covers in Hc. lia.
Qed.

(** X3: the aggregation returns the empty table exactly when [xrange]
    accepts every entry and no entry has [start_addr < end_addr]: accepted
    entries with [end_addr <= start_addr], reversed ones included, are
    passed over in silence. *)
Theorem addr_coverage_empty_iff (w : World) (target_name : string) :
  outcome (_get_addr_coverage w target_name) = Ok ∅ ↔
  Forall range_ok (all_ranges w target_name) ∧
  Forall (λ r, end_addr r ≤ start_addr r) (all_ranges w target_name).
Proof. apply empty_table_iff_no_range. Qed.

(** X4: adjacent blocks add up to the block that spans them: whenever
    counting [start, stop) succeeds, counting [start, mid) and then
    [mid, stop) succeeds as well and leaves the same table, whatever the
    third components are; and for a non-negative [start] the two ways end
    alike, both normally or both with [OverflowError]. *)
Theorem count_range_adjacent
    (m : AddressCountTable) (start mid stop h1 h2 h : Z) :
  start ≤ mid ≤ stop →
  ((count_range m (mkRange start stop h)).2 = Ok tt →
   for_counting [mkRange start mid h1; mkRange mid stop h2] m count_range
     = count_range m (mkRange start stop h)) ∧
  (0 ≤ start →
   (for_counting [mkRange start mid h1; mkRange mid stop h2] m count_range).2
     = (count_range m (mkRange start stop h)).2).
Proof.
  intros H.
  assert (Hspan : range_ok (mkRange start stop h) →
    for_counting [mkRange start mid h1; mkRange mid stop h2] m count_range
      = count_range m (mkRange start stop h)).
  { intros Hok. rewrite (count_range_fits _ _ Hok).
    rewrite for_counting_ranges_fits.
    - cbn [foldl]. by rewrite (bump_range_adjacent m start mid stop h1 h2 h).
    - unfold range_ok, xrange_ok, in_long in *. simpl in *.
      repeat constructor; simpl; lia. }
  split.
  - intros Hok%count_range_Ok_inv. by apply Hspan.
  - intros Hpos.
    destruct (decide (range_ok (mkRange start stop h))) as [Hok|Hn].
    + by rewrite Hspan.
    + rewrite (count_range_overflow _ _ Hn). cbn [snd].
      apply for_counting_ranges_overflow. intros Hall.
      apply Forall_cons in Hall as [H1 Hall].
      apply Forall_cons in Hall as [H2 _]. apply Hn.
      unfold range_ok, xrange_ok, in_long in *. simpl in *. lia.
Qed.

Lemma count_range_adjacent_witness :
  for_counting [mkRange 0x2000 0x2002 1; mkRange 0x2002 0x2004 5] ∅ count_range
    = count_range ∅ boundary_range.
Proof.
  apply (count_range_adjacent ∅ 0x2000 0x2002 0x2004 1 5 1).
  - lia.
  - reflexivity.
Defined.

(** X5: one entry that [xrange] accepts is counted without error and adds
    to the keys of the table the addresses of its interval and nothing
    else; on an empty table it leaves [end_addr - start_addr] keys, none
    when [end_addr <= start_addr]. *)
Theorem count_range_keys (m : AddressCountTable) (r : AddressRange) :
  range_ok r →
  (count_range m r).2 = Ok tt ∧
  dom (count_range m r).1
    = dom m ∪ list_to_set (interval (start_addr r) (end_addr r)) ∧
  size (count_range ∅ r).1 = Z.to_nat (end_addr r - start_addr r).
Proof.
  intros Hok. rewrite !(count_range_fits _ _ Hok). cbn [fst snd].
  split; [done|]. split; [apply dom_bump_range|].
  rewrite <- size_dom, dom_bump_range, dom_empty_L, (left_id_L ∅ (∪)).
  rewrite size_list_to_set by apply NoDup_seqZ.
  unfold interval. by rewrite length_seqZ.
Qed.

Lemma count_range_keys_witness :
  (count_range ∅ boundary_range).2 = Ok tt ∧
  dom (count_range ∅ boundary_range).1
    = dom (∅ : AddressCountTable) ∪ list_to_set (interval 0x2000 0x2004) ∧
  size (count_range ∅ boundary_range).1 = 4%nat.
Proof.
  apply (count_range_keys ∅ boundary_range).
  apply small_range_ok; vm_compute; intuition discriminate.
Defined.

(** X6: processing a coverage file never removes a key and never lowers
    a count, also when it ends with an exception: the dictionary it
    leaves holds everything it held before. *)
Theorem count_tb_data_monotone
    (m : AddressCountTable) (d : option (list AddressRange)) (a : Z) :
  dict_get m a ≤ dict_get (count_tb_data m d).1 a ∧
  (is_Some (m !! a) → is_Some ((count_tb_data m d).1 !! a)).
Proof.
  destruct (count_tb_data_prefix m d) as [k Hk]. rewrite Hk.
  pose proof (lookup_fold_bump_range (take k (ranges_of d)) m a) as Hl.
  pose proof (occurrences_nonneg a (take k (ranges_of d))) as Hn.
  split.
  - rewrite (dict_get_bumped _ _ _ _ Hl). lia.
  - rewrite Hl. unfold bumped. case_bool_decide; [done|]. by eexists.
Qed.

Lemma count_tb_data_monotone_witness :
  is_Some ((count_tb_data {[ 0x1000 := 4 ]} (Some example_ranges)).1 !! 0x1000).
Proof.
  apply (count_tb_data_monotone {[ 0x1000 := 4 ]} (Some example_ranges) 0x1000).
  by eexists.
Defined.

(** X7: counts add up over runs: when [xrange] accepts the entries of a
    run and these are the entries of two other runs put together (in any
    order), all three runs return a table and the count of every address
    is the sum of its counts in the two. *)
Theorem addr_coverage_additive
    (w w1 w2 : World) (target_name : string) :
  all_ranges w target_name
    ≡ₚ all_ranges w1 target_name ++ all_ranges w2 target_name →
  Forall range_ok (all_ranges w target_name) →
  ∃ m m1 m2,
    outcome (_get_addr_coverage w target_name) = Ok m ∧
    outcome (_get_addr_coverage w1 target_name) = Ok m1 ∧
    outcome (_get_addr_coverage w2 target_name) = Ok m2 ∧
    ∀ a, dict_get m a = dict_get m1 a + dict_get m2 a.
Proof.
  intros Hperm Hfits.
  assert (Hparts : Forall range_ok (all_ranges w1 target_name) ∧
                   Forall range_ok (all_ranges w2 target_name))
    by (rewrite <- Forall_app; by rewrite <- Hperm).
  destruct Hparts as [Hfits1 Hfits2].
  destruct (get_addr_coverage_lookup w target_name Hfits) as (m & Ho & _).
  destruct (get_addr_coverage_lookup w1 target_name Hfits1) as (m1 & Ho1 & _).
  destruct (get_addr_coverage_lookup w2 target_name Hfits2) as (m2 & Ho2 & _).
  exists m, m1, m2. repeat split; try done. intros a.
  rewrite (get_addr_coverage_dict_get _ _ _ a Ho).
  rewrite (get_addr_coverage_dict_get _ _ _ a Ho1).
  rewrite (get_addr_coverage_dict_get _ _ _ a Ho2).
  by rewrite (occurrences_Permutation a _ _ Hperm), occurrences_app.
Qed.

Lemma addr_coverage_additive_witness :
  ∃ m m1 m2,
    outcome (_get_addr_coverage overlap_world "target") = Ok m ∧
    outcome (_get_addr_coverage first_block_world "target") = Ok m1 ∧
    outcome (_get_addr_coverage second_block_world "target") = Ok m2 ∧
    ∀ a, dict_get m a = dict_get m1 a + dict_get m2 a.
Proof.
  apply (addr_coverage_additive overlap_world first_block_world
           second_block_world "target").
  - reflexivity.
  - repeat constructor; apply small_range_ok; vm_compute; intuition discriminate.
Defined.

(** * Further properties of the serializer *)

Section serializer_more.
Context (w : World).
Implicit Types (lines : LineTable) (t : LineCountTable).

Lemma entry_trace_no_open entry p : Open p ∉ entry_trace w entry.
Proof.
  unfold entry_trace. destruct (contains_backslash entry.1).
  - by intros (? & ? & _)%list_elem_of_fmap.
  - intros [|[|Hin]%elem_of_cons]%elem_of_cons; [done..|].
    destruct (isfile w (realpath w entry.1)).
    + by apply list_elem_of_fmap in Hin as (? & ? & _).
    + by apply list_elem_of_singleton in Hin.
Qed.

Lemma warnings_app tr1 tr2 : warnings (tr1 ++ tr2) = warnings tr1 ++ warnings tr2.
Proof. apply omap_app. Qed.

Lemma warnings_writes (ls : list string) : warnings (Write <$> ls) = [].
Proof. by induction ls. Qed.

Lemma warnings_entry_trace entry :
  warnings (entry_trace w entry) =
    match reported_path w entry.1 with
    | Some _ => []
    | None => [missing_file_warning (realpath w entry.1)]
    end.
Proof.
  unfold entry_trace, reported_path.
  destruct (contains_backslash entry.1); [apply warnings_writes|].
  destruct (isfile w (realpath w entry.1)); [|done].
  apply warnings_writes.
Qed.

Lemma length_lcov_record path lines :
  length (lcov_record path lines) = (4 + length lines)%nat.
Proof.
  unfold lcov_record. simpl. rewrite length_app, length_fmap. simpl. lia.
Qed.

Lemma end_lines_lcov_record path lines :
  filter (λ l, l = end_line) (lcov_record path lines) = [end_line].
Proof.
  unfold lcov_record. rewrite filter_cons_False by done.
  rewrite filter_app.
  assert (Hda : filter (λ l, l = end_line) (da_line <$> lines) = []).
  { induction lines as [|item lines IH]; [done|].
    rewrite fmap_cons, filter_cons_False by done. apply IH. }
  rewrite Hda. simpl.
  rewrite filter_cons_False by done. rewrite filter_cons_False by done.
  by rewrite filter_cons_True.
Qed.

Lemma filter_length_zero {A} (P : A → Prop) `{∀ x, Decision (P x)} (l : list A) :
  length (filter P l) = 0%nat ↔ Forall (λ x, ¬ P x) l.
Proof.
  induction l as [|x l IH]; [by split|].
  rewrite filter_cons, Forall_cons. destruct (decide (P x)); simpl.
  - split; [lia|]. by intros [? _].
  - rewrite IH. tauto.
Qed.

Lemma filter_length_all {A} (P : A → Prop) `{∀ x, Decision (P x)} (l : list A) :
  length (filter P l) = length l ↔ Forall P l.
Proof.
  induction l as [|x l IH]; [by split|].
  rewrite filter_cons, Forall_cons. pose proof (length_filter P l).
  destruct (decide (P x)); simpl.
  - rewrite <- IH. split; [intros [=]; by split|intros [_ ->]; done].
  - split; [lia|]. by intros [? _].
Qed.
End serializer_more.

(** X8: the serializer opens the report once, at the project path
    s2e-last/coverage.info, right after announcing it in the log and
    before anything is written; the first thing written is the header
    [TN:]; and the path opened is the path returned. *)
Theorem report_opened_once_then_header
    (w : World) (file_line_info : LineCountTable) :
  ∃ rest,
    trace (_save_coverage_info w file_line_info) =
      [LogInfo ("Writing line coverage to " +:+
                project_path w ["s2e-last"; "coverage.info"]%string);
       Open (project_path w ["s2e-last"; "coverage.info"]%string);
       Write tn_line] ++ rest ∧
    (∀ p, Open p ∉ rest) ∧
    outcome (_save_coverage_info w file_line_info)
      = Ok (project_path w ["s2e-last"; "coverage.info"]%string).
Proof.
  exists (file_line_info ≫= entry_trace w).
  rewrite save_coverage_info_eq. split; [done|]. split; [|done].
  intros p (entry & Hin & _)%list_elem_of_bind.
  by apply entry_trace_no_open in Hin.
Qed.

(** X9: records follow the order of the table and earlier records do not
    depend on later entries: the report of a table continued by a second
    one is the report of the first followed by the records (the report
    less its header) of the second. *)
Theorem report_of_appended_tables (w : World) (t1 t2 : LineCountTable) :
  written (trace (_save_coverage_info w (t1 ++ t2)))
    = written (trace (_save_coverage_info w t1))
      ++ tail (written (trace (_save_coverage_info w t2))).
Proof.
  rewrite !written_save_coverage_info. unfold lcov_report. simpl.
  by rewrite bind_app.
Qed.

(** X10: the two counters of the loop over a line table end with
    0 <= num_non_zero_lines <= num_instrumented_lines, the latter being
    the number of items; the former is 0 exactly when every count is 0
    and equals the latter exactly when no count is 0. *)
Theorem line_counters_bounds (lines : LineTable) :
  ∃ num_non_zero_lines num_instrumented_lines,
    outcome (for_each lines (0, 0) save_line)
      = Ok (num_non_zero_lines, num_instrumented_lines) ∧
    0 ≤ num_non_zero_lines ≤ num_instrumented_lines ∧
    num_instrumented_lines = Z.of_nat (length lines) ∧
    (num_non_zero_lines = 0 ↔ Forall (λ item, item.2 = 0) lines) ∧
    (num_non_zero_lines = num_instrumented_lines
       ↔ Forall (λ item, item.2 ≠ 0) lines).
Proof.
  exists (lines_hit lines), (lines_found lines).
  rewrite for_each_save_line. unfold lines_hit, lines_found.
  pose proof (length_filter (λ item : Z * Z, item.2 ≠ 0) lines) as Hle.
  split; [done|]. split; [lia|]. split; [done|]. split.
  - pose proof (filter_length_zero (λ item : Z * Z, item.2 ≠ 0) lines) as Hz.
    assert (Hnn : Forall (λ item : Z * Z, ¬ item.2 ≠ 0) lines
                  ↔ Forall (λ item : Z * Z, item.2 = 0) lines).
    { apply Forall_proper; [|done]. intros item.
      destruct (decide (item.2 = 0)); tauto. }
    rewrite <- Hnn, <- Hz. lia.
  - pose proof (filter_length_all (λ item : Z * Z, item.2 ≠ 0) lines) as Ha.
    rewrite <- Ha. lia.
Qed.

Section report_size.
Context (w : World).
Implicit Types (t : LineCountTable).

Lemma reported_cons entry t :
  reported w (entry :: t) =
    match reported_path w entry.1 with
    | Some _ => entry :: reported w t
    | None => reported w t
    end.
Proof.
  unfold reported. rewrite filter_cons.
  destruct (reported_path w entry.1) eqn:Hp.
  - rewrite decide_True; [done|by eexists].
  - rewrite decide_False; [done|by intros [? ?]].
Qed.

Lemma skipped_cons entry t :
  skipped w (entry :: t) =
    match reported_path w entry.1 with
    | Some _ => skipped w t
    | None => entry :: skipped w t
    end.
Proof.
  unfold skipped. rewrite filter_cons.
  destruct (reported_path w entry.1) eqn:Hp.
  - by rewrite decide_False.
  - by rewrite decide_True.
Qed.

Lemma length_entry_lines t :
  length (t ≫= entry_lines w)
    = (4 * length (reported w t)
       + sum_list ((λ entry, length entry.2) <$> reported w t))%nat.
Proof.
  induction t as [|entry t IH]; [done|].
  rewrite bind_cons, length_app, IH, reported_cons. unfold entry_lines.
  destruct (reported_path w entry.1); [|done].
  rewrite length_lcov_record, fmap_cons.
  cbn [sum_list_with length]. unfold id. lia.
Qed.

Lemma end_lines_entry_lines t :
  length (filter (λ l, l = end_line) (t ≫= entry_lines w))
    = length (reported w t).
Proof.
  induction t as [|entry t IH]; [done|].
  rewrite bind_cons, filter_app, length_app, IH, reported_cons.
  unfold entry_lines. destruct (reported_path w entry.1); [|done].
  by rewrite end_lines_lcov_record.
Qed.

Lemma warnings_bind_entry_trace t :
  warnings (t ≫= entry_trace w)
    = (λ entry, missing_file_warning (realpath w entry.1)) <$> skipped w t.
Proof.
  induction t as [|entry t IH]; [done|].
  rewrite bind_cons, warnings_app, warnings_entry_trace, IH, skipped_cons.
  by destruct (reported_path w entry.1).
Qed.

Lemma reported_skipped_length t :
  (length (reported w t) + length (skipped w t) = length t)%nat.
Proof.
  induction t as [|entry t IH]; [done|].
  rewrite reported_cons, skipped_cons.
  destruct (reported_path w entry.1); simpl; lia.
Qed.
End report_size.

(** X11: the size of the report.  It has one header line and, for every
    reported entry, four lines (SF, LH, LF, end_of_record) plus one DA
    line per item of its line table; and it holds exactly one
    end_of_record line per reported entry. *)
Theorem report_size (w : World) (file_line_info : LineCountTable) :
  length (written (trace (_save_coverage_info w file_line_info)))
    = (1 + 4 * length (reported w file_line_info)
       + sum_list ((λ entry, length entry.2) <$> reported w file_line_info))%nat ∧
  length (filter (λ l, l = end_line)
            (written (trace (_save_coverage_info w file_line_info))))
    = length (reported w file_line_info).
Proof.
  rewrite written_save_coverage_info. unfold lcov_report. split.
  - simpl. rewrite length_entry_lines. lia.
  - rewrite filter_cons_False by done. apply end_lines_entry_lines.
Qed.

(** X12: every entry of the table is either reported or warned about, never
    both and never neither: the warnings logged are, in table order, those
    for the skipped entries (one each, naming the resolved path), the
    skipped entries have keys without back-slash, and reported plus
    skipped entries make up the table. *)
Theorem one_warning_per_skipped_entry
    (w : World) (file_line_info : LineCountTable) :
  warnings (trace (_save_coverage_info w file_line_info))
    = (λ entry, missing_file_warning (realpath w entry.1))
        <$> skipped w file_line_info ∧
  Forall (λ entry, contains_backslash entry.1 = false ∧
                   isfile w (realpath w entry.1) = false)
         (skipped w file_line_info) ∧
  (length (reported w file_line_info) + length (skipped w file_line_info)
   = length file_line_info)%nat.
Proof.
  split; [|split].
  - rewrite save_coverage_info_eq. cbn [trace fst].
    change (?a :: ?b :: ?c :: ?l) with ([a; b; c] ++ l).
    rewrite warnings_app. apply warnings_bind_entry_trace.
  - apply Forall_forall. intros entry [Hnone _]%list_elem_of_filter.
    unfold reported_path in Hnone.
    destruct (contains_backslash entry.1); [done|].
    by destruct (isfile w (realpath w entry.1)).
  - apply reported_skipped_length.
Qed.

(** X13: a table of Windows-style keys only is written out without a
    single question to the file system and without a warning: every entry
    gets its record, under its key as it is. *)
Theorem windows_only_table_untouched
    (w : World) (file_line_info : LineCountTable) :
  Forall (λ entry, contains_backslash entry.1 = true) file_line_info →
  Forall (λ e, is_fs_query e = false)
         (trace (_save_coverage_info w file_line_info)) ∧
  warnings (trace (_save_coverage_info w file_line_info)) = [] ∧
  written (trace (_save_coverage_info w file_line_info))
    = tn_line :: (file_line_info ≫= λ entry, lcov_record entry.1 entry.2).
Proof.
  intros Hwin.
  assert (Htr : file_line_info ≫= entry_trace w
                = Write <$> (file_line_info ≫= λ entry,
                               lcov_record entry.1 entry.2)).
  { induction Hwin as [|entry t Hb _ IH]; [done|].
    rewrite !bind_cons, fmap_app, IH. unfold entry_trace. by rewrite Hb. }
  rewrite save_coverage_info_eq. cbn [trace fst]. rewrite Htr.
  split; [|split].
  - repeat (apply Forall_cons; split; [done|]).
    apply Forall_fmap, Forall_true. done.
  - change (?a :: ?b :: ?c :: ?l) with ([a; b; c] ++ l).
    rewrite warnings_app, warnings_writes. done.
  - cbn [written]. by rewrite written_writes.
Qed.

Lemma windows_only_table_untouched_witness :
  Forall (λ e, is_fs_query e = false)
         (trace (_save_coverage_info (example_world []) windows_table)) ∧
  warnings (trace (_save_coverage_info (example_world []) windows_table)) = [] ∧
  written (trace (_save_coverage_info (example_world []) windows_table))
    = tn_line :: (windows_table ≫= λ entry, lcov_record entry.1 entry.2).
Proof.
  apply (windows_only_table_untouched (example_world []) windows_table).
  repeat constructor.
Defined.

(** * Properties of [handle] and [_gen_html] *)

Section pipeline.
Context (w : World) (desc : ProjectDesc).

Lemma save_coverage_info_no_genhtml (t : LineCountTable) a b :
  Genhtml a b ∉ trace (_save_coverage_info w t).
Proof.
  rewrite save_coverage_info_eq. cbn [trace fst].
  intros [|[|[|H]%elem_of_cons]%elem_of_cons]%elem_of_cons; [done..|].
  apply list_elem_of_bind in H as (entry & Hin & _).
  unfold entry_trace in Hin. destruct (contains_backslash entry.1).
  - by apply list_elem_of_fmap in Hin as (? & ? & _).
  - apply elem_of_cons in Hin as [|[|Hin]%elem_of_cons]; [done..|].
    destruct (isfile w (realpath w entry.1)).
    + by apply list_elem_of_fmap in Hin as (? & ? & _).
    + by apply list_elem_of_singleton in Hin.
Qed.

Lemma nonempty_table_iff m :
  outcome (_get_addr_coverage w (target desc)) = Ok m →
  m ≠ ∅ ↔ Exists (λ r, start_addr r < end_addr r) (all_ranges w (target desc)).
Proof.
  intros Ho. pose proof (get_addr_coverage_Ok_inv _ _ _ Ho) as [Hfits _].
  pose proof (empty_table_iff_no_range w (target desc)) as Hiff.
  rewrite Ho in Hiff. split.
  - intros Hne.
    destruct (decide (Exists (λ r, start_addr r < end_addr r)
                        (all_ranges w (target desc)))) as [|Hnex]; [done|].
    exfalso. apply Hne. apply not_Exists_Forall in Hnex; [|apply _].
    assert (Ok m = Ok ∅) as [= ->]; [|done].
    apply Hiff. split; [done|].
    eapply Forall_impl; [exact Hnex|]. simpl. intros r. lia.
  - intros Hex ->. apply Exists_exists in Hex as (r & Hr & Hlt).
    destruct (proj1 Hiff eq_refl) as [_ Hall].
    rewrite Forall_forall in Hall. specialize (Hall r Hr). lia.
Qed.

(** [handle] once the table is known not to be empty. *)
Lemma handle_with_coverage (html : bool) m :
  outcome (_get_addr_coverage w (target desc)) = Ok m → m ≠ ∅ →
  handle w desc html =
    (trace (_get_addr_coverage w (target desc)) ++
     trace (_save_coverage_info w
              (get_file_line_coverage w (target_path desc) m)) ++
     (if html then [Genhtml (lcov_info_path w) (lcov_html_dir w)] else []),
     if html then
       match genhtml w (lcov_info_path w) (lcov_html_dir w) with
       | Some e => Raise (CommandError e)
       | None => Ok ("Line coverage saved to " +:+ lcov_info_path w +:+
                     ". An HTML report is available in " +:+ lcov_html_dir w)
       end
     else Ok ("Line coverage saved to " +:+ lcov_info_path w)).
Proof.
  intros Ho Hne. pose proof (get_addr_coverage_Ok_inv _ _ _ Ho) as [_ Hm].
  unfold handle. rewrite Hm. cbn [bind trace fst].
  rewrite bool_decide_eq_false_2 by done.
  rewrite save_coverage_info_eq. unfold lcov_info_path, lcov_html_dir.
  destruct html.
  - unfold _gen_html. cbn [bind emit].
    destruct (genhtml w _ _); cbn; by rewrite ?app_nil_r.
  - cbn. by rewrite ?app_nil_r.
Qed.

Lemma handle_without_coverage (html : bool) :
  outcome (_get_addr_coverage w (target desc)) = Ok ∅ →
  handle w desc html =
    (trace (_get_addr_coverage w (target desc)),
     Raise (CommandError "No translation block information found")).
Proof.
  intros Ho. pose proof (get_addr_coverage_Ok_inv _ _ _ Ho) as [_ Hm].
  unfold handle. rewrite Hm. cbn [bind trace fst].
  by rewrite bool_decide_eq_true_2.
Qed.

(** [handle] when [xrange] refuses an entry: the exception passes through. *)
Lemma handle_overflow (html : bool) :
  ¬ Forall range_ok (all_ranges w (target desc)) →
  handle w desc html =
    ([LogInfo "Generating translation block coverage information"],
     Raise OverflowError).
Proof.
  intros Hn. unfold handle. by rewrite (get_addr_coverage_overflow _ _ Hn).
Qed.
End pipeline.

(** X14: when [xrange] accepts every entry, some entry has
    [start_addr < end_addr] and no HTML is asked for, [handle] returns
    "Line coverage saved to <report path>", what it wrote is the report of
    the table that the line mapper returned for [target_path] and the
    aggregated address counts, and genhtml is not run. *)
Theorem handle_writes_mapped_report (w : World) (desc : ProjectDesc) :
  Forall range_ok (all_ranges w (target desc)) →
  Exists (λ r, start_addr r < end_addr r) (all_ranges w (target desc)) →
  ∃ m, outcome (_get_addr_coverage w (target desc)) = Ok m ∧
       outcome (handle w desc false)
         = Ok ("Line coverage saved to " +:+ lcov_info_path w) ∧
       written (trace (handle w desc false))
         = lcov_report w (get_file_line_coverage w (target_path desc) m) ∧
       ∀ a b, Genhtml a b ∉ trace (handle w desc false).
Proof.
  intros Hfits Hex.
  destruct (get_addr_coverage_ok w (target desc) Hfits) as [m Hm].
  assert (Ho : outcome (_get_addr_coverage w (target desc)) = Ok m)
    by (by rewrite Hm).
  assert (Hne : m ≠ ∅) by (by apply (nonempty_table_iff w desc m Ho)).
  exists m. split; [done|].
  rewrite (handle_with_coverage w desc false m Ho Hne).
  split; [done|]. cbn [trace outcome fst snd]. rewrite app_nil_r. split.
  - rewrite Hm. cbn [fst app written].
    apply written_save_coverage_info.
  - intros a b. rewrite Hm. cbn [fst app].
    intros [|Hin]%elem_of_cons; [done|].
    by apply save_coverage_info_no_genhtml in Hin.
Qed.

Lemma handle_writes_mapped_report_witness :
  ∃ m, outcome (_get_addr_coverage overlap_world "target") = Ok m ∧
       outcome (handle overlap_world example_desc false)
         = Ok ("Line coverage saved to " +:+ lcov_info_path overlap_world) ∧
       written (trace (handle overlap_world example_desc false))
         = lcov_report overlap_world
             (get_file_line_coverage overlap_world "/proj/bin/target" m) ∧
       ∀ a b, Genhtml a b ∉ trace (handle overlap_world example_desc false).
Proof.
  apply (handle_writes_mapped_report overlap_world example_desc).
  - repeat constructor; apply small_range_ok; vm_compute; intuition discriminate.
  - left. simpl. lia.
Defined.

(** X15: asking for HTML changes nothing in the report: with the option
    [handle] does what it does without it and then, exactly when the run
    without the option got as far as opening the report, runs genhtml once
    on the report path with the project path s2e-last/lcov as output
    directory; otherwise it does nothing more. *)
Theorem html_option_keeps_report (w : World) (desc : ProjectDesc) :
  written (trace (handle w desc true))
    = written (trace (handle w desc false)) ∧
  ∃ rest,
    trace (handle w desc true) = trace (handle w desc false) ++ rest ∧
    (((∃ p, Open p ∈ trace (handle w desc false)) ∧
      rest = [Genhtml (lcov_info_path w) (lcov_html_dir w)]) ∨
     ((¬ ∃ p, Open p ∈ trace (handle w desc false)) ∧ rest = [])).
Proof.
  assert (Hlog : ¬ ∃ p,
            Open p ∈ [LogInfo "Generating translation block coverage information"]).
  { intros (p & Hin). by apply list_elem_of_singleton in Hin. }
  destruct (decide (Forall range_ok (all_ranges w (target desc))))
    as [Hfits|Hn].
  - destruct (get_addr_coverage_ok w (target desc) Hfits) as [m Hm].
    assert (Ho : outcome (_get_addr_coverage w (target desc)) = Ok m)
      by (by rewrite Hm).
    destruct (decide (m = ∅)) as [->|Hne].
    + rewrite !(handle_without_coverage w desc _ Ho). split; [done|].
      exists []. split; [by rewrite app_nil_r|]. right.
      cbn [trace fst]. by rewrite get_addr_coverage_trace.
    + rewrite !(handle_with_coverage w desc _ m Ho Hne).
      cbn [trace fst]. rewrite app_nil_r. split.
      * rewrite !app_assoc, written_app. cbn [written]. by rewrite app_nil_r.
      * eexists. split; [by rewrite app_assoc|]. left. split; [|done].
        exists (lcov_info_path w). rewrite save_coverage_info_eq.
        apply elem_of_app. right. cbn [fst]. right. left.
  - rewrite !(handle_overflow w desc _ Hn). split; [done|].
    exists []. split; [by rewrite app_nil_r|]. by right.
Qed.

(** X16: with the HTML option, entries that [xrange] accepts and a report
    to render, the outcome of [handle] is decided by genhtml: its failure
    is raised as a command error carrying the renderer's diagnostic, its
    success yields the message naming the report and the HTML directory.
    Either way the report has been written in full before, and running
    genhtml is the last thing done. *)
Theorem renderer_decides_outcome (w : World) (desc : ProjectDesc) :
  Forall range_ok (all_ranges w (target desc)) →
  Exists (λ r, start_addr r < end_addr r) (all_ranges w (target desc)) →
  outcome (handle w desc true)
    = match genhtml w (lcov_info_path w) (lcov_html_dir w) with
      | Some e => Raise (CommandError e)
      | None => Ok ("Line coverage saved to " +:+ lcov_info_path w +:+
                    ". An HTML report is available in " +:+ lcov_html_dir w)
      end ∧
  last (trace (handle w desc true))
    = Some (Genhtml (lcov_info_path w) (lcov_html_dir w)) ∧
  ∃ m, outcome (_get_addr_coverage w (target desc)) = Ok m ∧
       written (trace (handle w desc true))
         = lcov_report w (get_file_line_coverage w (target_path desc) m).
Proof.
  intros Hfits Hex.
  destruct (get_addr_coverage_ok w (target desc) Hfits) as [m Hm].
  assert (Ho : outcome (_get_addr_coverage w (target desc)) = Ok m)
    by (by rewrite Hm).
  assert (Hne : m ≠ ∅) by (by apply (nonempty_table_iff w desc m Ho)).
  rewrite (handle_with_coverage w desc true m Ho Hne).
  cbn [trace outcome fst snd]. split; [done|]. split.
  - by rewrite !app_assoc, last_snoc.
  - exists m. split; [done|].
    rewrite Hm, !written_app. cbn [trace fst written app].
    rewrite app_nil_r. apply written_save_coverage_info.
Qed.

Lemma renderer_decides_outcome_witness :
  outcome (handle broken_renderer_world example_desc true)
    = Raise (CommandError "genhtml: exit code 1") ∧
  written (trace (handle broken_renderer_world example_desc true))
    = lcov_report broken_renderer_world example_table.
Proof.
  destruct (renderer_decides_outcome broken_renderer_world example_desc)
    as (Hout & _ & m & _ & Hw).
  - repeat constructor; apply small_range_ok; vm_compute; intuition discriminate.
  - left. simpl. lia.
  - split; [exact Hout|exact Hw].
Defined.

(** X17: the whole command is blind to the third component of the
    entries: replacing the parser by one whose results agree with the
    original on (start_addr, end_addr) and order leaves the trace and the
    outcome of [handle] as they were. *)
Theorem handle_ignores_hit_count
    (w : World) (parse : string → string → option (list AddressRange))
    (desc : ProjectDesc) (html : bool) :
  Forall (λ f, same_spans (parse_tb_file w f (target desc))
                          (parse f (target desc)))
         (get_tb_files w (project_path w ["s2e-last"%string])) →
  handle (with_parse_tb_file w parse) desc html = handle w desc html.
Proof.
  intros Hspans.
  assert (Hagg : _get_addr_coverage (with_parse_tb_file w parse) (target desc)
                 = _get_addr_coverage w (target desc)).
  { unfold _get_addr_coverage. simpl.
    by rewrite (for_counting_files_same_spans
                  (λ f, parse_tb_file w f (target desc))
                  (λ f, parse f (target desc)) _ _ Hspans). }
  unfold handle. rewrite Hagg. reflexivity.
Qed.

Lemma handle_ignores_hit_count_witness :
  handle (with_parse_tb_file overlap_world (parse_tb_file recounted_world))
         example_desc true
    = handle overlap_world example_desc true.
Proof.
  apply (handle_ignores_hit_count overlap_world
           (parse_tb_file recounted_world) example_desc true).
  repeat constructor.
Defined.

(** X18: [handle] gets as far as opening the report exactly when [xrange]
    accepts every entry and some entry has [start_addr < end_addr]; and
    without the HTML option it raises the "No translation block
    information found" error exactly when [xrange] accepts every entry and
    none has. *)
Theorem report_opened_iff_coverage
    (w : World) (desc : ProjectDesc) (html : bool) :
  ((∃ p, Open p ∈ trace (handle w desc html)) ↔
   Forall range_ok (all_ranges w (target desc)) ∧
   Exists (λ r, start_addr r < end_addr r) (all_ranges w (target desc))) ∧
  (outcome (handle w desc false)
     = Raise (CommandError "No translation block information found") ↔
   Forall range_ok (all_ranges w (target desc)) ∧
   Forall (λ r, end_addr r ≤ start_addr r) (all_ranges w (target desc))).
Proof.
  assert (Hlog : ¬ ∃ p,
            Open p ∈ [LogInfo "Generating translation block coverage information"]).
  { intros (p & Hin). by apply list_elem_of_singleton in Hin. }
  destruct (decide (Forall range_ok (all_ranges w (target desc))))
    as [Hfits|Hn].
  - destruct (get_addr_coverage_ok w (target desc) Hfits) as [m Hm].
    assert (Ho : outcome (_get_addr_coverage w (target desc)) = Ok m)
      by (by rewrite Hm).
    pose proof (nonempty_table_iff w desc m Ho) as Hne.
    pose proof (empty_table_iff_no_range w (target desc)) as Hem.
    rewrite Ho in Hem.
    destruct (decide (m = ∅)) as [->|Hm0].
    + rewrite !(handle_without_coverage w desc _ Ho).
      rewrite get_addr_coverage_trace. cbn [trace outcome fst snd]. split.
      * split; [done|]. intros [_ Hex]. by apply Hne in Hex.
      * split; [intros _; by apply Hem|done].
    + rewrite !(handle_with_coverage w desc _ m Ho Hm0).
      cbn [trace outcome fst snd]. split.
      * split; [intros _; split; [done|by apply Hne]|]. intros _.
        exists (lcov_info_path w). rewrite save_coverage_info_eq.
        apply elem_of_app. right. apply elem_of_app. left.
        cbn [fst]. right. left.
      * split; [done|]. intros Hall. destruct Hm0.
        assert (Ok m = Ok ∅) as [= ->]; [by apply Hem|done].
  - rewrite !(handle_overflow w desc _ Hn). cbn [trace outcome fst snd].
    split; (split; [done|by intros [? _]]).
Qed.

(** X24: an entry that [xrange] refuses (an address that does not convert
    to a C long, or more than [sys.maxint] addresses in between) aborts
    the run: the aggregation raises [OverflowError] exactly when some
    entry is refused, and [handle] then ends with that exception having
    done nothing but log the aggregation message: no report is opened or
    written and genhtml is not run. *)
Theorem unfit_entry_aborts_run
    (w : World) (desc : ProjectDesc) (html : bool) :
  (outcome (_get_addr_coverage w (target desc)) = Raise OverflowError ↔
   Exists (λ r, ¬ range_ok r) (all_ranges w (target desc))) ∧
  (Exists (λ r, ¬ range_ok r) (all_ranges w (target desc)) →
   handle w desc html =
     ([LogInfo "Generating translation block coverage information"],
      Raise OverflowError)).
Proof.
  assert (Hdual : Exists (λ r, ¬ range_ok r) (all_ranges w (target desc))
                  ↔ ¬ Forall range_ok (all_ranges w (target desc))).
  { split.
    - intros (r & Hr & Hn)%Exists_exists Hall.
      rewrite Forall_forall in Hall. by apply Hn, Hall.
    - intros Hn. apply not_Forall_Exists in Hn; [done|apply _]. }
  split.
  - rewrite Hdual. split.
    + intros Ho Hfits.
      destruct (get_addr_coverage_ok w (target desc) Hfits) as [m Hm].
      by rewrite Hm in Ho.
    + intros Hn. by rewrite (get_addr_coverage_overflow _ _ Hn).
  - intros Hex%Hdual. by apply handle_overflow.
Qed.

Lemma unfit_entry_aborts_run_witness :
  handle far_world example_desc true =
    ([LogInfo "Generating translation block coverage information"],
     Raise OverflowError).
Proof.
  apply (unfit_entry_aborts_run far_world example_desc true).
  right. left. vm_compute. intuition discriminate.
Defined.

(** * Reading the report back *)

Section unambiguous_lines.
Lemma contains_char_pretty_N_go (c : ascii) (x : N) (s : string) :
  (∀ d, (d < 10)%N → c ≠ pretty_N_char d) →
  contains_char c (pretty_N_go x s) = contains_char c s.
Proof.
  intros Hc. revert s. induction (N.lt_wf_0 x) as [x _ IH]; intros s.
  assert (x = 0 ∨ 0 < x)%N as [->|Hpos] by lia.
  - by rewrite pretty_N_go_0.
  - rewrite pretty_N_go_step by done.
    rewrite IH by (by apply N.div_lt). simpl.
    assert (Hd : c ≠ pretty_N_char (x `mod` 10))
      by (apply Hc, N.mod_lt; lia).
    apply Ascii.eqb_neq in Hd. by rewrite Hd.
Qed.

Lemma comma_not_digit d : (d < 10)%N → ","%char ≠ pretty_N_char d.
Proof. intros _. unfold pretty_N_char. by repeat case_match. Qed.

Lemma fmt_d_no_comma (n : Z) : contains_char "," (fmt_d n) = false.
Proof.
  assert (HN : ∀ p, contains_char "," (pretty (N.pos p)) = false).
  { intros p. unfold pretty, pretty_N. rewrite decide_False by done.
    by rewrite contains_char_pretty_N_go by apply comma_not_digit. }
  unfold fmt_d, pretty, pretty_Z. destruct n as [|p|p]; [done|apply HN|].
  simpl. apply HN.
Qed.

(** Cutting at the first occurrence of a character. *)
Lemma app_sep_inj (c : ascii) (s1 s2 r1 r2 : string) :
  contains_char c s1 = false → contains_char c s2 = false →
  s1 +:+ String c r1 = s2 +:+ String c r2 → s1 = s2 ∧ r1 = r2.
Proof.
  revert s2. induction s1 as [|a s1 IH]; intros [|b s2]; simpl.
  - by intros _ _ [= ->].
  - intros _ Hb [= <- _]. by rewrite Ascii.eqb_refl in Hb.
  - intros Ha _ [= -> _]. by rewrite Ascii.eqb_refl in Ha.
  - intros [_ Ha]%orb_false_iff [_ Hb]%orb_false_iff [= -> Heq].
    destruct (IH s2 Ha Hb Heq) as [-> ->]. done.
Qed.

Lemma fmt_d_inj (n1 n2 : Z) : fmt_d n1 = fmt_d n2 → n1 = n2.
Proof. unfold fmt_d. apply pretty_Z_inj. Qed.

Lemma da_line_inj (item1 item2 : Z * Z) :
  da_line item1 = da_line item2 → item1 = item2.
Proof.
  destruct item1 as [l1 c1], item2 as [l2 c2]. unfold da_line. simpl.
  intros [= Heq].
  apply app_sep_inj in Heq as [Hl Hc]; [|apply fmt_d_no_comma..].
  apply app_nl_inj in Hc. apply fmt_d_inj in Hl, Hc. by subst.
Qed.

Lemma da_lines_inj (lines1 lines2 : LineTable) :
  da_line <$> lines1 = da_line <$> lines2 → lines1 = lines2.
Proof.
  revert lines2. induction lines1 as [|i1 l1 IH]; intros [|i2 l2]; try done.
  rewrite !fmap_cons. intros Heq.
  assert (Hi : da_line i1 = da_line i2) by congruence.
  assert (Hl : da_line <$> l1 = da_line <$> l2) by congruence.
  apply da_line_inj in Hi. apply IH in Hl. by subst.
Qed.

Lemma lcov_record_inj path1 path2 (lines1 lines2 : LineTable) :
  lcov_record path1 lines1 = lcov_record path2 lines2 →
  path1 = path2 ∧ lines1 = lines2.
Proof.
  intros Heq. pose proof (f_equal length Heq) as Hlen.
  rewrite !length_lcov_record in Hlen.
  unfold lcov_record in Heq.
  assert (Hsf : sf_line path1 = sf_line path2) by congruence.
  assert (Hrest : (da_line <$> lines1) ++
                    [lh_line (lines_hit lines1); lf_line (lines_found lines1);
                     end_line]
                  = (da_line <$> lines2) ++
                    [lh_line (lines_hit lines2); lf_line (lines_found lines2);
                     end_line]) by congruence.
  apply sf_line_inj in Hsf. split; [done|].
  apply app_inj_1 in Hrest as [Hda _]; [|rewrite !length_fmap; lia].
  by apply da_lines_inj.
Qed.
End unambiguous_lines.

(** X19: the lines written for a record can be read back without
    ambiguity: two records made of the same sequence of written lines
    have the same path and the same line table (line numbers and counts,
    in order).  In particular a DA: line determines its line number and
    its count. *)
Theorem record_lines_determine_record
    (path1 path2 : string) (lines1 lines2 : LineTable) :
  written (trace (save_record path1 lines1))
    = written (trace (save_record path2 lines2)) →
  path1 = path2 ∧ lines1 = lines2.
Proof.
  rewrite !save_record_eq. cbn [trace fst]. rewrite !written_writes.
  apply lcov_record_inj.
Qed.

Lemma record_lines_determine_record_witness :
  "src/main.c"%string = "src/main.c"%string ∧
  [(10, 4); (11, 0)] = [(10, 4); (11, 0)].
Proof.
  apply (record_lines_determine_record "src/main.c" "src/main.c"
           [(10, 4); (11, 0)] [(10, 4); (11, 0)]).
  reflexivity.
Defined.

(** * Counting what was done *)

Section counting.
Context (w : World).
Implicit Types (t : LineCountTable) (m : AddressCountTable).

Lemma total_count_comm (j1 j2 : Z) (z1 z2 y : Z) :
  z1 + (z2 + y) = z2 + (z1 + y).
Proof. lia. Qed.

Lemma total_count_count_addr m a :
  total_count (count_addr m a) = total_count m + 1.
Proof.
  unfold total_count, count_addr. destruct (m !! a) as [v|] eqn:Hm; simpl.
  - rewrite <- insert_delete_eq.
    rewrite map_fold_insert_L;
      [|intros; apply total_count_comm; done|apply lookup_delete_eq].
    rewrite (map_fold_delete_L _ _ a v m);
      [|intros; apply total_count_comm; done|done].
    lia.
  - rewrite map_fold_insert_L;
      [|intros; apply total_count_comm; done|done].
    lia.
Qed.

Lemma total_count_fold_count_addr (l : list Z) m :
  total_count (foldl count_addr m l) = total_count m + Z.of_nat (length l).
Proof.
  revert m. induction l as [|a l IH]; intros m; simpl; [lia|].
  rewrite IH, total_count_count_addr. lia.
Qed.

Lemma total_count_bump_range m r :
  total_count (bump_range m r) = total_count m + range_length r.
Proof.
  unfold bump_range, range_length, interval.
  rewrite total_count_fold_count_addr, length_seqZ. lia.
Qed.

Lemma total_count_fold_bump_range (data : list AddressRange) m :
  total_count (foldl bump_range m data)
    = total_count m + foldr Z.add 0 (range_length <$> data).
Proof.
  revert m. induction data as [|r data IH]; intros m.
  - cbn [foldl fmap list_fmap foldr]. lia.
  - rewrite fmap_cons. cbn [foldl foldr].
    rewrite IH, total_count_bump_range. lia.
Qed.

Lemma total_count_bump_tb_data m d :
  total_count (bump_tb_data m d)
    = total_count m + foldr Z.add 0 (range_length <$> ranges_of d).
Proof.
  destruct d as [[|r data]|]; [cbn; lia| |cbn; lia].
  apply (total_count_fold_bump_range (r :: data)).
Qed.

Lemma total_count_fold_bump_tb_data
    (parse : string → option (list AddressRange)) (files : list string) m :
  total_count (foldl (λ acc f, bump_tb_data acc (parse f)) m files)
    = total_count m
      + foldr Z.add 0 (range_length <$> (files ≫= λ f, ranges_of (parse f))).
Proof.
  revert m. induction files as [|f files IH]; intros m.
  - cbn. lia.
  - rewrite bind_cons, fmap_app. cbn [foldl].
    rewrite IH, total_count_bump_tb_data.
    generalize (range_length <$> (files ≫= λ f, ranges_of (parse f))).
    generalize (total_count m).
    induction (range_length <$> ranges_of (parse f)) as [|x l IHl];
      intros z l'; cbn [foldr app]; [lia|].
    specialize (IHl z l'). lia.
Qed.

Lemma sf_lines_lcov_record p path (lines : LineTable) :
  filter (λ l, l = sf_line p) (lcov_record path lines)
    = if decide (path = p) then [sf_line p] else [].
Proof.
  unfold lcov_record. rewrite filter_cons, filter_app.
  assert (Hda : filter (λ l, l = sf_line p) (da_line <$> lines) = []).
  { induction lines as [|item lines IH]; [done|].
    rewrite fmap_cons, filter_cons_False by done. apply IH. }
  rewrite Hda. simpl.
  rewrite filter_cons_False by done. rewrite filter_cons_False by done.
  rewrite filter_cons_False by done. rewrite filter_nil.
  destruct (decide (path = p)) as [->|Hne].
  - by rewrite decide_True.
  - rewrite decide_False; [done|]. intros Heq%sf_line_inj. done.
Qed.

Lemma sf_lines_entry_lines p t :
  length (filter (λ l, l = sf_line p) (t ≫= entry_lines w))
    = length (filter (λ entry, reported_path w entry.1 = Some p) t).
Proof.
  induction t as [|entry t IH]; [done|].
  rewrite bind_cons, filter_app, length_app, IH, filter_cons.
  unfold entry_lines. destruct (reported_path w entry.1) as [path|].
  - rewrite sf_lines_lcov_record.
    destruct (decide (path = p)) as [->|Hne].
    + by rewrite decide_True.
    + rewrite decide_False; [done|]. by intros [= ?].
  - by rewrite decide_False.
Qed.

Lemma fs_queries_entry_trace entry :
  filter (λ e, is_fs_query e = true) (entry_trace w entry)
    = entry_fs_queries w entry.
Proof.
  assert (Hw : ∀ ls : list string,
            filter (λ e, is_fs_query e = true) (Write <$> ls) = []).
  { induction ls as [|l ls IH]; [done|].
    rewrite fmap_cons, filter_cons_False by done. apply IH. }
  unfold entry_trace, entry_fs_queries.
  destruct (contains_backslash entry.1); [apply Hw|].
  rewrite filter_cons_True by done. rewrite filter_cons_True by done.
  destruct (isfile w (realpath w entry.1)); [by rewrite Hw|].
  by rewrite filter_cons_False.
Qed.
End counting.

(** X20: when [xrange] accepts every entry, the counts of the returned
    table add up to the number of addresses of all the intervals met: the
    sum, over the entries, of [end_addr - start_addr] where that is
    positive. *)
Theorem total_count_is_total_length (w : World) (target_name : string) :
  Forall range_ok (all_ranges w target_name) →
  ∃ m, outcome (_get_addr_coverage w target_name) = Ok m ∧
       total_count m
         = foldr Z.add 0 (range_length <$> all_ranges w target_name).
Proof.
  intros Hfits. rewrite (get_addr_coverage_fits _ _ Hfits).
  eexists. split; [reflexivity|].
  unfold all_ranges.
  rewrite (total_count_fold_bump_tb_data
             (λ f, parse_tb_file w f target_name)).
  unfold total_count. by rewrite map_fold_empty.
Qed.

Lemma total_count_is_total_length_witness :
  ∃ m, outcome (_get_addr_coverage overlap_world "target") = Ok m ∧
       total_count m
         = foldr Z.add 0 (range_length <$> all_ranges overlap_world "target").
Proof.
  apply (total_count_is_total_length overlap_world "target").
  repeat constructor; apply small_range_ok; vm_compute; intuition discriminate.
Defined.

(** X21: source files are not merged: the report holds as many SF: lines
    for a path as there are table entries reported under that path, so
    two keys that resolve to the same file give two records. *)
Theorem no_merging_of_records
    (w : World) (file_line_info : LineCountTable) (path : string) :
  length (filter (λ l, l = sf_line path)
            (written (trace (_save_coverage_info w file_line_info))))
    = length (filter (λ entry, reported_path w entry.1 = Some path)
                file_line_info).
Proof.
  rewrite written_save_coverage_info. unfold lcov_report.
  rewrite filter_cons_False by done. apply sf_lines_entry_lines.
Qed.

(** X22: the file system is asked once per key without back-slash, in
    table order: [realpath] about the key, then [isfile] about the
    resolved path; nothing else is asked. *)
Theorem file_system_queries (w : World) (file_line_info : LineCountTable) :
  filter (λ e, is_fs_query e = true)
         (trace (_save_coverage_info w file_line_info))
    = file_line_info ≫= entry_fs_queries w.
Proof.
  rewrite save_coverage_info_eq. cbn [trace fst].
  do 3 (rewrite filter_cons_False by done).
  induction file_line_info as [|entry t IH]; [done|].
  by rewrite !bind_cons, filter_app, fs_queries_entry_trace, IH.
Qed.

(** X23: the Windows-style test looks for a back-slash anywhere in the
    key: it succeeds exactly when the key can be cut into a part before
    a back-slash and a part after it. *)
Theorem backslash_test_is_occurrence (src_file : string) :
  contains_backslash src_file = true ↔
  ∃ before after, src_file = before +:+ String "\"%char after.
Proof.
  unfold contains_backslash. generalize "\"%char. intros bs.
  induction src_file as [|c s IH]; cbn [contains_char].
  - split; [done|]. intros ([|? ?] & after & Heq); discriminate.
  - rewrite orb_true_iff, IH. split.
    + intros [Hc%Ascii.eqb_eq|(before & after & ->)].
      * subst c. by exists ""%string, s.
      * by exists (String c before), after.
    + intros ([|c' before] & after & Heq); simpl in Heq.
      * injection Heq as <- _. left. apply Ascii.eqb_refl.
      * injection Heq as _ ->. right. by exists before, after.
Qed.
